(** * The work-expansion engine of roll_one_for_me

    A shallow embedding of [rofm/classes/core/work/workload.py]: the
    [WorkloadType] enumeration, the [Workload]/[WorkNode] objects, the
    resolver registry [work_resolution], the adapter [decorated_function]
    installed by [@WorkNode.workload_resolver], and the tree walk
    [do_all_work]/[do_my_work].

    Python objects live in a store (a finite map from object identities to
    node records); code that mutates nodes is written in a state-and-exception
    monad over that store.  The tree linkage ([parent], [children]) and the
    pre-order iterator come from the [anytree] package, whose [NodeMixin]
    parent setter and [PreOrderIter] generator are modelled here as they
    behave on the store.  The model follows Python 3.7-3.9, where
    [collections.Iterable] is still an alias of [collections.abc.Iterable]. *)

From stdpp Require Import gmap strings list pretty.

Set Default Proof Using "Type".
Local Set Warnings "-register-all".

(** ** Task kinds: [class WorkloadType(str, AutoName)] *)

Inductive WorkloadType :=
  | username_mention
  | private_message
  | chat
  | parse_op
  | parse_for_reddit_domain_urls
  | parse_top_level_comments
  | parse_comment_for_table
  | parse_arbitrary_text_for_table
  | parse_table
  | parse_wide_table
  | perform_basic_roll
  | perform_compound_roll
  | roll_stats
  | roll_specific_request
  | roll_table
  | roll_this_die
  | respond_with_private_message_apology
  | default_request
  | follow_link.

(** [AutoName._generate_next_value_] makes the value of a member its name. *)
Definition WorkloadType_name (k : WorkloadType) : string :=
  match k with
  | username_mention => "username_mention"
  | private_message => "private_message"
  | chat => "chat"
  | parse_op => "parse_op"
  | parse_for_reddit_domain_urls => "parse_for_reddit_domain_urls"
  | parse_top_level_comments => "parse_top_level_comments"
  | parse_comment_for_table => "parse_comment_for_table"
  | parse_arbitrary_text_for_table => "parse_arbitrary_text_for_table"
  | parse_table => "parse_table"
  | parse_wide_table => "parse_wide_table"
  | perform_basic_roll => "perform_basic_roll"
  | perform_compound_roll => "perform_compound_roll"
  | roll_stats => "roll_stats"
  | roll_specific_request => "roll_specific_request"
  | roll_table => "roll_table"
  | roll_this_die => "roll_this_die"
  | respond_with_private_message_apology => "respond_with_private_message_apology"
  | default_request => "default_request"
  | follow_link => "follow_link"
  end.

Definition WorkloadType_index (k : WorkloadType) : nat :=
  match k with
  | username_mention => 0
  | private_message => 1
  | chat => 2
  | parse_op => 3
  | parse_for_reddit_domain_urls => 4
  | parse_top_level_comments => 5
  | parse_comment_for_table => 6
  | parse_arbitrary_text_for_table => 7
  | parse_table => 8
  | parse_wide_table => 9
  | perform_basic_roll => 10
  | perform_compound_roll => 11
  | roll_stats => 12
  | roll_specific_request => 13
  | roll_table => 14
  | roll_this_die => 15
  | respond_with_private_message_apology => 16
  | default_request => 17
  | follow_link => 18
  end.

Definition WorkloadType_members : list WorkloadType :=
  [ username_mention; private_message; chat; parse_op;
    parse_for_reddit_domain_urls; parse_top_level_comments;
    parse_comment_for_table; parse_arbitrary_text_for_table; parse_table;
    parse_wide_table; perform_basic_roll; perform_compound_roll; roll_stats;
    roll_specific_request; roll_table; roll_this_die;
    respond_with_private_message_apology; default_request; follow_link ].

Global Instance WorkloadType_eq_dec : EqDecision WorkloadType.
Proof. solve_decision. Defined.

Global Instance WorkloadType_countable : Countable WorkloadType.
Proof.
  apply (inj_countable WorkloadType_index (λ n, WorkloadType_members !! n)).
  intros []; reflexivity.
Defined.

(** ** Python values

    The fragment of Python values the engine tells apart: [None], scalars,
    strings, lists and tuples, references to [WorkNode] objects, and opaque
    collaborator objects (a praw [Comment] or [Submission]) seen through their
    attributes.  A string, a list and a tuple are iterable; a [WorkNode] and a
    collaborator object are not. *)

Abbreviation node_id := nat (only parsing).

Inductive pyval :=
  | PNone
  | PBool (b : bool)
  | PInt (z : Z)
  | PStr (s : string)
  | PList (items : list pyval)
  | PTuple (items : list pyval)
  | PNode (id : node_id)
  | PObj (attrs : list (string * pyval)).

(** [isinstance(v, collections.Iterable)] *)
Definition is_iterable (v : pyval) : bool :=
  match v with
  | PStr _ | PList _ | PTuple _ => true
  | _ => false
  end.

(** [isinstance(v, WorkNode)] *)
Definition is_WorkNode (v : pyval) : bool :=
  match v with
  | PNode _ => true
  | _ => false
  end.

(** The items [for item in v] goes through; a string yields its characters,
    each a string of length one. *)
Definition py_iter (v : pyval) : option (list pyval) :=
  match v with
  | PStr s => Some ((λ c, PStr (String c EmptyString)) <$> String.list_ascii_of_string s)
  | PList items | PTuple items => Some items
  | _ => None
  end.

(** Truth value of [v] in a condition. *)
Definition truthy (v : pyval) : bool :=
  match v with
  | PNone => false
  | PBool b => b
  | PInt z => negb (Z.eqb z 0)
  | PStr s => negb (String.eqb s EmptyString)
  | PList items | PTuple items => negb (Nat.eqb (length items) 0)
  | PNode _ | PObj _ => true
  end.

(** [getattr(v, a)] on a collaborator object. *)
Fixpoint assoc_lookup (a : string) (l : list (string * pyval)) : option pyval :=
  match l with
  | [] => None
  | (k, v) :: l' => if String.eqb k a then Some v else assoc_lookup a l'
  end.

(** ** Exceptions *)

Inductive exn :=
  | KeyError (k : WorkloadType)
  | AssertionError (msg : string)
  | TypeError (msg : string)
  | AttributeError (attr : string)
  | LoopError
  | TreeError
  | ResolverError (payload : pyval)
  | DanglingReference.

Inductive result (A : Type) :=
  | Ok (a : A)
  | Raise (e : exn).
Arguments Ok {A} a.
Arguments Raise {A} e.

(** ** Nodes and the object store

    [Workload] is a dataclass with fields [work_type], [args], [kwargs] and
    [finished]; [output = None] is a class attribute that instances shadow on
    assignment.  [WorkNode(Workload, NodeMixin)] adds [name] and the tree
    linkage of anytree. *)

Record WorkNode := mkWorkNode {
  work_type : WorkloadType;
  args : pyval;
  kwargs : gmap string pyval;
  finished : bool;
  output : pyval;
  name : pyval;
  parent : option node_id;
  children : list node_id
}.

Abbreviation heap := (gmap nat WorkNode) (only parsing).

Definition with_output (v : pyval) (n : WorkNode) : WorkNode :=
  mkWorkNode (work_type n) (args n) (kwargs n) (finished n) v (name n)
             (parent n) (children n).

Definition with_finished (b : bool) (n : WorkNode) : WorkNode :=
  mkWorkNode (work_type n) (args n) (kwargs n) b (output n) (name n)
             (parent n) (children n).

Definition with_name (v : pyval) (n : WorkNode) : WorkNode :=
  mkWorkNode (work_type n) (args n) (kwargs n) (finished n) (output n) v
             (parent n) (children n).

Definition with_parent (p : option node_id) (n : WorkNode) : WorkNode :=
  mkWorkNode (work_type n) (args n) (kwargs n) (finished n) (output n) (name n)
             p (children n).

Definition with_children (cs : list node_id) (n : WorkNode) : WorkNode :=
  mkWorkNode (work_type n) (args n) (kwargs n) (finished n) (output n) (name n)
             (parent n) cs.

Definition with_args (a : pyval) (n : WorkNode) : WorkNode :=
  mkWorkNode (work_type n) a (kwargs n) (finished n) (output n) (name n)
             (parent n) (children n).

(** The children of an object as [node.children] reads them (a tuple copied
    from the list at the time of the read). *)
Definition children_of (h : heap) (id : node_id) : list node_id :=
  match h !! id with
  | Some n => children n
  | None => []
  end.

(** ** The state-and-exception monad *)

Definition M (A : Type) : Type := heap → heap * result A.

Definition ret {A} (a : A) : M A := λ h, (h, Ok a).

Definition raise {A} (e : exn) : M A := λ h, (h, Raise e).

Definition bind {A B} (m : M A) (k : A → M B) : M B :=
  λ h, match m h with
       | (h', Ok a) => k a h'
       | (h', Raise e) => (h', Raise e)
       end.

Declare Scope py_scope.
Delimit Scope py_scope with py.
Notation "'let*' x ':=' m 'in' k" := (bind m (λ x, k))
  (at level 10, x pattern, m at level 100, k at level 200) : py_scope.
Notation "m ';;' k" := (bind m (λ _, k))
  (at level 100, k at level 200, right associativity) : py_scope.
Open Scope py_scope.

Definition deref (id : node_id) : M WorkNode :=
  λ h, match h !! id with
       | Some n => (h, Ok n)
       | None => (h, Raise DanglingReference)
       end.

Definition update_node (id : node_id) (f : WorkNode → WorkNode) : M unit :=
  λ h, match h !! id with
       | Some n => (<[id := f n]> h, Ok tt)
       | None => (h, Raise DanglingReference)
       end.

(** [for x in l: body(x)] *)
Fixpoint for_each {A} (body : A → M unit) (l : list A) : M unit :=
  match l with
  | [] => ret tt
  | x :: l' => body x ;; for_each body l'
  end.

(** ** Tree linkage: anytree's [NodeMixin.parent] setter

    [iter_path_reverse] walks from a node up through its ancestors; the walk
    is bounded by the number of objects in the store, which a chain of parents
    without a loop never exceeds. *)

Fixpoint iter_path_reverse (fuel : nat) (h : heap) (node : node_id) : list node_id :=
  match fuel with
  | O => []
  | S fuel' =>
      node :: match h !! node ≫= parent with
              | Some p => iter_path_reverse fuel' h p
              | None => []
              end
  end.

(** [NodeMixin.__check_loop] *)
Definition check_loop (self : node_id) (node : option node_id) : M unit :=
  λ h, match node with
       | None => (h, Ok tt)
       | Some p =>
           if decide (p = self) then (h, Raise LoopError)
           else if decide (self ∈ iter_path_reverse (S (size h)) h p)
                then (h, Raise LoopError)
                else (h, Ok tt)
       end.

(** [NodeMixin.__detach]: the old parent's children list is rebuilt without
    [self], and [self] loses its parent. *)
Definition detach (self : node_id) (old : option node_id) : M unit :=
  match old with
  | None => ret tt
  | Some p =>
      update_node p (λ n, with_children (filter (λ c, c ≠ self) (children n)) n) ;;
      update_node self (with_parent None)
  end.

(** [NodeMixin.__attach]: [self] is appended to the new parent's children. *)
Definition attach (self : node_id) (new : option node_id) : M unit :=
  match new with
  | None => ret tt
  | Some p =>
      update_node p (λ n, with_children (children n ++ [self]) n) ;;
      update_node self (with_parent (Some p))
  end.

(** [self.parent = value], for [value] a node or [None]. *)
Definition set_parent (self : node_id) (value : option node_id) : M unit :=
  let* n := deref self in
  if decide (parent n = value) then ret tt
  else check_loop self value ;; detach self (parent n) ;; attach self value.

(** ** The constructor [WorkNode.__init__]

    Its signature has [work_type], [args] with default [()], and the
    keyword-only [name] and [parent], both with default [None]. *)

(** A new object gets an identity no live object has. *)
Definition allocate (n : WorkNode) : M node_id :=
  λ h, let id := fresh (dom h) in (<[id := n]> h, Ok id).

(** The [parent] argument as the setter of anytree receives it: anything
    that is neither [None] nor a node is refused with [TreeError]. *)
Definition parent_argument (v : pyval) : M (option node_id) :=
  match v with
  | PNone => ret None
  | PNode p => let* _ := deref p in ret (Some p)
  | _ => raise TreeError
  end.

Definition default_name (k : WorkloadType) : pyval :=
  PStr ("'" +:+ WorkloadType_name k +:+ "'").

Definition WorkNode_init (k : WorkloadType) (args_ : pyval) (name_ : pyval)
    (parent_ : pyval) : M node_id :=
  (* super(WorkNode, self).__init__(work_type, args) *)
  let* self := allocate (mkWorkNode k args_ ∅ false PNone PNone None []) in
  (* self.parent = parent *)
  let* p := parent_argument parent_ in
  set_parent self p ;;
  (* self.name = name if name else f"'{work_type.name}'" *)
  update_node self (with_name (if truthy name_ then name_ else default_name k)) ;;
  ret self.

(** A call of [WorkNode] with [work_type] and keywords: Python binds the keywords to
    the parameters of the signature and refuses any other keyword. *)
Definition WorkNode_parameters : list string := ["args"; "name"; "parent"].

Definition keyword_default (kw : list (string * pyval)) (p : string)
    (default : pyval) : pyval :=
  match assoc_lookup p kw with
  | Some v => v
  | None => default
  end.

Definition WorkNode_call (k : WorkloadType) (kw : list (string * pyval)) : M node_id :=
  match filter (λ p, p ∉ WorkNode_parameters) kw.*1 with
  | bad :: _ => raise (TypeError ("__init__() got an unexpected keyword argument '" +:+ bad +:+ "'"))
  | [] =>
      WorkNode_init k (keyword_default kw "args" (PTuple []))
                    (keyword_default kw "name" PNone)
                    (keyword_default kw "parent" PNone)
  end.

(** ** The resolver adapter *)

Definition split_iterable {A} (iterable : list A) (split_condition : A → bool)
    : list A * list A :=
  fold_left (λ '(list_satisfying, list_not_satisfying) item,
               if split_condition item
               then (list_satisfying ++ [item], list_not_satisfying)
               else (list_satisfying, list_not_satisfying ++ [item]))
            iterable ([], []).

(** A raw resolver [f], called with positional and keyword arguments, and
    what the registry holds: a function that returns the pair
    [(new_work, output)]. *)
Definition raw_resolver : Type := list pyval → gmap string pyval → M pyval.
Definition resolver : Type := list pyval → gmap string pyval → M (pyval * pyval).

(** The part of [decorated_function] after [f] has returned. *)
Definition normalize (base_function_return_value : pyval) : pyval * pyval :=
  match base_function_return_value with
  | PNone => (PList [], PNone)
  | _ =>
      match py_iter base_function_return_value with
      | None =>
          if is_WorkNode base_function_return_value
          then (PList [base_function_return_value], PNone)
          else (PList [], base_function_return_value)
      | Some items =>
          let '(workload, outputs) := split_iterable items is_WorkNode in
          (PList workload, PList outputs)
      end
  end.

Definition decorated_function (f : raw_resolver) : resolver :=
  λ args_ kwargs_,
    let* base_function_return_value := f args_ kwargs_ in
    ret (normalize base_function_return_value).

(** ** The registry [WorkNode.work_resolution] *)

Abbreviation registry := (gmap WorkloadType resolver) (only parsing).

Definition _register_resolver (k : WorkloadType) (registered_resolver : resolver)
    (override : bool) (work_resolution : registry) : registry * result unit :=
  if override || bool_decide (work_resolution !! k = None)
  then (<[k := registered_resolver]> work_resolution, Ok tt)
  else (work_resolution,
        Raise (AssertionError ("Resolver for " +:+ WorkloadType_name k +:+ " already present."))).

(** [work_resolution[work_type]] *)
Definition lookup_resolver (work_resolution : registry) (k : WorkloadType)
    : result resolver :=
  match work_resolution !! k with
  | Some r => Ok r
  | None => Raise (KeyError k)
  end.

(** The decorator [@WorkNode.workload_resolver] with its [work_types] and
    [override], applied to [f]: the kinds are registered one after the other,
    and a failing registration leaves the earlier ones in the registry. *)
Fixpoint register_each (work_types : list WorkloadType) (r : resolver)
    (override : bool) (work_resolution : registry) : registry * result unit :=
  match work_types with
  | [] => (work_resolution, Ok tt)
  | wt :: rest =>
      match _register_resolver wt r override work_resolution with
      | (work_resolution', Ok _) => register_each rest r override work_resolution'
      | (work_resolution', Raise e) => (work_resolution', Raise e)
      end
  end.

Definition workload_resolver (work_types : list WorkloadType) (override : bool)
    (f : raw_resolver) (work_resolution : registry) : registry * result unit :=
  match work_types with
  | [] => (work_resolution,
           Raise (AssertionError "Specify at least one WorkloadType to resolve via this function."))
  | _ => register_each work_types (decorated_function f) override work_resolution
  end.

(** ** The tree walk *)

Definition attach_child (self : node_id) (child : pyval) : M unit :=
  match child with
  | PNode c => set_parent c (Some self)
  | _ => raise (AttributeError "parent")
  end.

Definition do_my_work (work_resolution : registry) (self : node_id) : M unit :=
  let* n := deref self in
  match lookup_resolver work_resolution (work_type n) with
  | Raise e => raise e
  | Ok resolver_ =>
      match py_iter (args n) with
      | None => raise (TypeError "argument after * must be an iterable")
      | Some args_ =>
          let* returned := resolver_ args_ (kwargs n) in
          let '(new_work, out) := returned in
          update_node self (with_output out) ;;
          (if truthy new_work
           then match py_iter new_work with
                | Some items => for_each (attach_child self) items
                | None => raise (TypeError "object is not iterable")
                end
           else ret tt) ;;
          update_node self (with_finished true)
      end
  end.

(** [PreOrderIter(self)] is a generator: each active [_iter] frame holds the
    siblings it still has to yield, and the children of a node are read when
    the generator is resumed after having yielded that node, which in
    [do_all_work] is right after [node.do_my_work()] has returned. *)
Inductive outcome :=
  | Done (h : heap) (log : list node_id)
  | Raised (e : exn) (at_node : node_id) (h : heap) (log : list node_id)
  | OutOfFuel (h : heap) (stack : list (list node_id)) (log : list node_id).

Fixpoint iterate (work_resolution : registry) (fuel : nat) (h : heap)
    (stack : list (list node_id)) (log : list node_id) : outcome :=
  match stack with
  | [] => Done h log
  | frame :: stack' =>
      match fuel with
      | O => OutOfFuel h stack log
      | S fuel' =>
          match frame with
          | [] => iterate work_resolution fuel' h stack' log
          | node :: siblings =>
              match do_my_work work_resolution node h with
              | (h', Raise e) => Raised e node h' log
              | (h', Ok _) =>
                  iterate work_resolution fuel' h'
                          (children_of h' node :: siblings :: stack')
                          (log ++ [node])
              end
          end
      end
  end.

Definition do_all_work (work_resolution : registry) (fuel : nat)
    (self : node_id) (h : heap) : outcome :=
  iterate work_resolution fuel h [[self]] [].

(** ** The resolvers registered by [workload.py] itself *)

(** Binding of the single parameter [p] of a resolver [def f(p)]. *)
Definition bind_parameter (p : string) (args_ : list pyval)
    (kwargs_ : gmap string pyval) : M pyval :=
  match args_, map_to_list kwargs_ with
  | [v], [] => ret v
  | [], [(k, v)] =>
      if String.eqb k p then ret v
      else raise (TypeError ("got an unexpected keyword argument '" +:+ k +:+ "'"))
  | _, _ => raise (TypeError "wrong number of arguments")
  end.

Definition getattr (v : pyval) (a : string) : M pyval :=
  match v with
  | PObj attrs =>
      match assoc_lookup a attrs with
      | Some x => ret x
      | None => raise (AttributeError a)
      end
  | _ => raise (AttributeError a)
  end.

(** [list(v)] *)
Definition py_list (v : pyval) : M pyval :=
  match py_iter v with
  | Some items => ret (PList items)
  | None => raise (TypeError "object is not iterable")
  end.

(** The list comprehension of [scan_top_level_comments], from index [i] on. *)
Fixpoint top_level_comment_nodes (i : nat) (comments : list pyval) : M (list pyval) :=
  match comments with
  | [] => ret []
  | comment :: rest =>
      let* node := WorkNode_call parse_comment_for_table
                     [("args", PTuple [comment]);
                      ("name", PStr ("Top-level comment " +:+ pretty (i + 1)))] in
      let* nodes := top_level_comment_nodes (S i) rest in
      ret (PNode node :: nodes)
  end.

Definition scan_top_level_comments : raw_resolver :=
  λ args_ kwargs_,
    let* comments := bind_parameter "comments" args_ kwargs_ in
    match py_iter comments with
    | None => raise (TypeError "object is not iterable")
    | Some items =>
        let* nodes := top_level_comment_nodes 0 items in
        ret (PList nodes)
    end.

Definition scan_comment_for_table : raw_resolver :=
  λ args_ kwargs_,
    let* mention := bind_parameter "mention" args_ kwargs_ in
    let* body := getattr mention "body" in
    let* node := WorkNode_call parse_arbitrary_text_for_table
                   [("args", PTuple [body])] in
    ret (PNode node).

Definition scan_submission_for_table : raw_resolver :=
  λ args_ kwargs_,
    let* op := bind_parameter "op" args_ kwargs_ in
    let* selftext := getattr op "selftext" in
    let* node := WorkNode_call parse_arbitrary_text_for_table
                   [("args", PTuple [selftext])] in
    ret (PNode node).

Definition process_username_mention : raw_resolver :=
  λ args_ kwargs_,
    let* mention := bind_parameter "mention" args_ kwargs_ in
    let* op := getattr mention "submission" in
    let* comments := getattr op "comments" in
    let* top_level_comments := py_list comments in
    let* n1 := WorkNode_call parse_comment_for_table
                 [("args", PTuple [mention]); ("name", PStr "Look in mention for tables")] in
    let* n2 := WorkNode_call parse_op
                 [("args", PTuple [op]); ("name", PStr "Search OP for tables")] in
    let* n3 := WorkNode_call parse_top_level_comments
                 [("args", PTuple [top_level_comments]);
                  ("name", PStr "Search top-level comments for tables.")] in
    ret (PTuple [PNode n1; PNode n2; PNode n3]).

(** The registry once the module has been imported: the four decorators, in
    the order of the file, each without [override]. *)
Definition module_registry : registry :=
  let r0 : registry := ∅ in
  let r1 := (workload_resolver [parse_top_level_comments] false scan_top_level_comments r0).1 in
  let r2 := (workload_resolver [parse_comment_for_table] false scan_comment_for_table r1).1 in
  let r3 := (workload_resolver [parse_op] false scan_submission_for_table r2).1 in
  (workload_resolver [username_mention] false process_username_mention r3).1.

(** ** Vocabulary of the statements *)

(** [preorder_of h r l]: [l] lists, in pre-order, the nodes of the tree that
    hangs below [r] in the store [h]; a node comes before its descendants and
    the subtrees of its children follow in the order of its [children]. *)
Inductive preorder_of (h : heap) : node_id → list node_id → Prop :=
  | preorder_node r n l :
      h !! r = Some n →
      preorder_forest h (children n) l →
      preorder_of h r (r :: l)
with preorder_forest (h : heap) : list node_id → list node_id → Prop :=
  | preorder_nil : preorder_forest h [] []
  | preorder_cons c cs l1 l2 :
      preorder_of h c l1 →
      preorder_forest h cs l2 →
      preorder_forest h (c :: cs) (l1 ++ l2).

Scheme preorder_of_mut := Minimality for preorder_of Sort Prop
  with preorder_forest_mut := Minimality for preorder_forest Sort Prop.

(** The listing computed; [fuel] bounds the depth of the tree. *)
Fixpoint forest_list (f : node_id → option (list node_id)) (cs : list node_id)
    : option (list node_id) :=
  match cs with
  | [] => Some []
  | c :: cs' =>
      match f c, forest_list f cs' with
      | Some l1, Some l2 => Some (l1 ++ l2)
      | _, _ => None
      end
  end.

Fixpoint preorder_list (fuel : nat) (h : heap) (r : node_id) : option (list node_id) :=
  match fuel with
  | O => None
  | S fuel' =>
      match h !! r with
      | None => None
      | Some n =>
          match forest_list (preorder_list fuel' h) (children n) with
          | Some l => Some (r :: l)
          | None => None
          end
      end
  end.

(** [reachable h r x]: [x] is [r] or a descendant of [r]. *)
Inductive reachable (h : heap) : node_id → node_id → Prop :=
  | reachable_self r : reachable h r r
  | reachable_child r n c x :
      h !! r = Some n → c ∈ children n → reachable h c x → reachable h r x.

(** The two stores give [x] the same children. *)
Definition same_children (h h2 : heap) (x : node_id) : Prop :=
  children <$> h2 !! x = children <$> h !! x.

(** No node names a parent that is not in the store. *)
Definition parents_closed (h : heap) : Prop :=
  ∀ x n p, h !! x = Some n → parent n = Some p → is_Some (h !! p).

(** An executable check of [parents_closed]. *)
Definition parents_closedb (h : heap) : bool :=
  forallb (λ '(_, n), match parent n with
                      | Some p => bool_decide (is_Some (h !! p))
                      | None => true
                      end)
          (map_to_list h).

(** A node as the constructor leaves it: not finished, no output. *)
Definition as_constructed (n : WorkNode) : Prop :=
  finished n = false ∧ output n = PNone.

(** What the engine expects of a registered resolver (the resolver contract):
    it leaves the nodes that exist alone, and the work it returns is a list of
    new parentless nodes, each the root of a tree of new nodes.  [P] is a
    property the new nodes are created with. *)
Definition new_work_of (P : WorkNode → Prop) (h h1 : heap) (new_work : pyval) : Prop :=
  ∃ ids lnew,
    new_work = PList (PNode <$> ids) ∧
    preorder_forest h1 ids lnew ∧
    NoDup lnew ∧
    (∀ x, x ∈ lnew → h !! x = None) ∧
    (∀ x, x ∈ lnew → ∃ n, h1 !! x = Some n ∧ P n) ∧
    (∀ x, x ∈ ids → ∃ n, h1 !! x = Some n ∧ parent n = None).

Definition well_behaved (P : WorkNode → Prop) (r : resolver) : Prop :=
  ∀ args_ kwargs_ h h1 res,
    parents_closed h →
    r args_ kwargs_ h = (h1, res) →
    (∀ x n, h !! x = Some n → h1 !! x = Some n) ∧
    parents_closed h1 ∧
    match res with
    | Ok (new_work, _) => new_work_of P h h1 new_work
    | Raise _ => True
    end.

Definition registry_well_behaved (P : WorkNode → Prop) (work_resolution : registry) : Prop :=
  ∀ k r, work_resolution !! k = Some r → well_behaved P r.

(** A resolver that only makes new leaves: when it raises it has changed
    nothing, and when it returns, its work is a list of different new nodes,
    each parentless, childless and as constructed, and the store differs from
    the one it was called in by these nodes only. *)
Definition makes_only_new_leaves (r : resolver) : Prop :=
  ∀ args_ kwargs_ (h h1 : heap) res,
    parents_closed h →
    r args_ kwargs_ h = (h1, res) →
    match res with
    | Raise _ => h1 = h
    | Ok (new_work, _) =>
        ∃ ids,
          new_work = PList (PNode <$> ids) ∧
          NoDup ids ∧
          (∀ x, x ∈ ids → h !! x = None) ∧
          (∀ x, x ∈ ids →
             ∃ n, h1 !! x = Some n ∧ children n = [] ∧ parent n = None ∧ as_constructed n) ∧
          (∀ x, x ∉ ids → h1 !! x = h !! x)
    end.

(** The state of a walk started at [root] in the store [h0]: the nodes of
    [log] have been worked on, those of [pending] are still to come. *)
Definition walk_state (P : WorkNode → Prop) (h0 : heap) (root : node_id)
    (h : heap) (log pending : list node_id) : Prop :=
  parents_closed h ∧
  (∀ x, is_Some (h0 !! x) → is_Some (h !! x)) ∧
  preorder_of h root (log ++ pending) ∧
  NoDup (log ++ pending) ∧
  (∀ x, x ∈ log → finished <$> h !! x = Some true) ∧
  (∀ x, x ∈ pending → is_Some (h0 !! x) → h !! x = h0 !! x) ∧
  (∀ x, x ∈ pending → h0 !! x = None → ∃ n, h !! x = Some n ∧ P n).


(** [resolved reg c h h']: the store [h'] is what one call of the resolver
    registered for the kind of [c], on the arguments of [c] and in the store
    [h], leads to: the output it returned is the output of [c], the nodes it
    returned follow the earlier children of [c] and have [c] as parent, [c]
    is finished, and every other node is as the resolver left it. *)
Inductive resolved (work_resolution : registry) (c : node_id) (h h' : heap) : Prop :=
  | resolved_by n (r : resolver) args_ (h1 : heap) ids out :
      h !! c = Some n →
      work_resolution !! work_type n = Some r →
      py_iter (args n) = Some args_ →
      r args_ (kwargs n) h = (h1, Ok (PList (PNode <$> ids), out)) →
      h' !! c = Some (with_finished true
                        (with_children (children n ++ ids) (with_output out n))) →
      (∀ x, x ∈ ids → ∃ m, h1 !! x = Some m ∧ h' !! x = Some (with_parent (Some c) m)) →
      (∀ x, x ≠ c → x ∉ ids → h' !! x = h1 !! x) →
      resolved work_resolution c h h'.

(** [resolved_in_turn reg h l h']: [h'] comes from [h] by one such resolver
    call for each node of [l], in the order of [l], and by nothing else. *)
Inductive resolved_in_turn (work_resolution : registry) : heap → list node_id → heap → Prop :=
  | resolved_none h : resolved_in_turn work_resolution h [] h
  | resolved_next c l (h h1 h' : heap) :
      resolved work_resolution c h h1 →
      resolved_in_turn work_resolution h1 l h' →
      resolved_in_turn work_resolution h (c :: l) h'.

(** The store an outcome carries. *)
Definition store_of (o : outcome) : heap :=
  match o with
  | Done h _ => h
  | Raised _ _ h _ => h
  | OutOfFuel h _ _ => h
  end.

(** The fields of a node other than its tree linkage. *)
Definition unlinked (n : WorkNode) : WorkNode :=
  with_parent None (with_children [] n).

(** A computation that changes nothing but tree linkage. *)
Definition linkage_only {A} (m : M A) : Prop :=
  ∀ (g g' : heap) r, m g = (g', r) →
    ∀ y, unlinked <$> g' !! y = unlinked <$> g !! y.

(** A bound on the steps of a walk.  When kinds are ranked so that the work
    a resolver returns is of lower rank than the kind it is registered for,
    and a resolver call makes at most [B] nodes, a pending node of rank [r]
    costs at most [cost B r] steps. *)
Fixpoint cost (B r : nat) : nat :=
  match r with
  | O => 2
  | S r' => 2 + B * cost B r'
  end.

Definition node_cost (rank : WorkloadType → nat) (B : nat) (h : heap) (x : node_id) : nat :=
  match h !! x with
  | Some n => cost B (rank (work_type n))
  | None => 0
  end.

Definition registry_ranked (rank : WorkloadType → nat) (B : nat)
    (work_resolution : registry) : Prop :=
  ∀ k r args_ kwargs_ (h h1 : heap) res,
    work_resolution !! k = Some r →
    parents_closed h →
    r args_ kwargs_ h = (h1, Ok res) →
    (∀ x m, h !! x = None → h1 !! x = Some m → rank (work_type m) < rank k) ∧
    (∀ l, NoDup l → (∀ x, x ∈ l → h !! x = None ∧ is_Some (h1 !! x)) → length l ≤ B).

(** The walk has come to an end, with or without an error. *)
Definition ended (o : outcome) : Prop :=
  match o with
  | OutOfFuel _ _ _ => False
  | _ => True
  end.

(** ** Resolvers and stores of the scenarios *)

(** A leaf resolver that returns a fixed string. *)
Definition leaf_resolver : raw_resolver := λ _ _, ret (PStr "leaf").

(** A resolver that returns nothing. *)
Definition silent_resolver : raw_resolver := λ _ _, ret PNone.

(** A resolver that returns two new child tasks of kind [roll_table]. *)
Definition two_children : raw_resolver :=
  λ _ _,
    let* a := WorkNode_call roll_table [] in
    let* b := WorkNode_call roll_table [] in
    ret (PList [PNode a; PNode b]).

(** A resolver that returns one new child task together with a value. *)
Definition child_and_value : raw_resolver :=
  λ _ _,
    let* a := WorkNode_call roll_table [] in
    ret (PList [PNode a; PInt 7]).

(** A resolver that returns its argument: [def f(x): return x]. *)
Definition identity_resolver : raw_resolver :=
  λ args_ kwargs_, bind_parameter "x" args_ kwargs_.

(** A resolver that raises. *)
Definition failing_resolver : raw_resolver := λ _ _, raise (ResolverError (PStr "boom")).

Definition scenario_registry : registry :=
  let r0 : registry := ∅ in
  let r1 := (workload_resolver [parse_table] false two_children r0).1 in
  let r2 := (workload_resolver [roll_table] false leaf_resolver r1).1 in
  let r3 := (workload_resolver [follow_link] false failing_resolver r2).1 in
  let r4 := (workload_resolver [roll_stats] false silent_resolver r3).1 in
  (workload_resolver [parse_wide_table] false child_and_value r4).1.

(** A store with a single root of the given kind. *)
Definition single_root (k : WorkloadType) : heap := (WorkNode_call k [] ∅).1.


(** A store with a root of kind [roll_stats] and three children made with
    [parent=root]: a [roll_table], a [follow_link] and a [roll_table]. *)
Definition failure_store : heap :=
  (bind (WorkNode_call roll_stats [])
     (λ root,
        WorkNode_call roll_table [("parent", PNode root)] ;;
        WorkNode_call follow_link [("parent", PNode root)] ;;
        WorkNode_call roll_table [("parent", PNode root)]) ∅).1.


(** A ranking of the kinds for the scenarios: the two kinds whose resolvers
    make child tasks are above the others. *)
Definition scenario_rank (k : WorkloadType) : nat :=
  match k with
  | parse_table | parse_wide_table => 1
  | _ => 0
  end.

(** A resolver that looks at a node it is given: it raises when the node is
    finished and returns nothing otherwise. *)
Definition fail_if_finished : raw_resolver :=
  λ args_ kwargs_,
    let* v := bind_parameter "node" args_ kwargs_ in
    match v with
    | PNode id =>
        let* n := deref id in
        if finished n then raise (ResolverError (PStr "finished")) else ret PNone
    | _ => raise (AttributeError "finished")
    end.

(** Resolvers that hand back a node that is already in the tree: the kind
    [parse_op] returns its argument, the kind [follow_link] fails on a
    finished node. *)
Definition aliasing_registry : registry :=
  let r0 : registry := ∅ in
  let r1 := (workload_resolver [roll_stats] false silent_resolver r0).1 in
  let r2 := (workload_resolver [roll_table] false leaf_resolver r1).1 in
  let r3 := (workload_resolver [parse_op] false identity_resolver r2).1 in
  (workload_resolver [follow_link] false fail_if_finished r3).1.

(** A root with two children, made in this order:
    [root = WorkNode(roll_stats)], [a = WorkNode(first_kind, parent=root)],
    [a.args = (a,)] and [WorkNode(parse_op, args=(a,), parent=root)].  The
    second child has the first as argument, and so has the first itself. *)
Definition aliasing_store (first_kind : WorkloadType) : heap :=
  (bind (WorkNode_call roll_stats [])
     (λ root,
        let* a := WorkNode_call first_kind [("parent", PNode root)] in
        update_node a (with_args (PTuple [PNode a])) ;;
        WorkNode_call parse_op [("args", PTuple [PNode a]); ("parent", PNode root)]) ∅).1.
(** * Properties *)

(** ** The monad *)

Lemma bind_inv {A B} (m : M A) (k : A → M B) h h' r :
  bind m k h = (h', r) →
  (∃ h1 a, m h = (h1, Ok a) ∧ k a h1 = (h', r)) ∨
  (∃ e, m h = (h', Raise e) ∧ r = Raise e).
Proof.
  unfold bind. destruct (m h) as [h1 [a|e]]; intros H.
  - left. eauto.
  - right. injection H as <- <-. eauto.
Qed.

Lemma bind_ok {A B} (m : M A) (k : A → M B) h h1 a :
  m h = (h1, Ok a) → bind m k h = k a h1.
Proof. unfold bind. by intros ->. Qed.

Lemma bind_raise {A B} (m : M A) (k : A → M B) h h1 e :
  m h = (h1, Raise e) → bind m k h = (h1, Raise e).
Proof. unfold bind. by intros ->. Qed.

(** ** The adapter *)

Lemma split_iterable_from {A} (p : A → bool) (l a b : list A) :
  fold_left (λ '(list_satisfying, list_not_satisfying) item,
               if p item
               then (list_satisfying ++ [item], list_not_satisfying)
               else (list_satisfying, list_not_satisfying ++ [item]))
            l (a, b)
  = (a ++ filter (λ x, p x) l, b ++ filter (λ x, ¬ p x) l).
Proof.
  revert a b. induction l as [|x l IH]; intros a b; simpl.
  - by rewrite !app_nil_r.
  - destruct (p x) eqn:Hx; rewrite IH.
    + rewrite filter_cons_True, filter_cons_False, <- app_assoc; [done| |];
        rewrite Hx; simpl; tauto.
    + rewrite filter_cons_False, filter_cons_True, <- app_assoc; [done| |];
        rewrite Hx; simpl; tauto.
Qed.

Lemma split_iterable_filter {A} (l : list A) (p : A → bool) :
  split_iterable l p = (filter (λ x, p x) l, filter (λ x, ¬ p x) l).
Proof. unfold split_iterable. by rewrite split_iterable_from. Qed.

Lemma py_iter_is_iterable v : is_iterable v = true ↔ is_Some (py_iter v).
Proof.
  destruct v; simpl; split; intros H; try done; try (by eexists);
    by destruct H.
Qed.

Lemma normalize_iterable v items :
  py_iter v = Some items →
  normalize v = (PList (filter (λ x, is_WorkNode x) items),
                 PList (filter (λ x, ¬ is_WorkNode x) items)).
Proof.
  intros H. unfold normalize.
  destruct v; try discriminate; rewrite H, split_iterable_filter; done.
Qed.

Lemma characters_are_not_nodes (l : list Ascii.ascii) :
  filter (λ x, is_WorkNode x) ((λ c, PStr (String c EmptyString)) <$> l) = [] ∧
  filter (λ x, ¬ is_WorkNode x) ((λ c, PStr (String c EmptyString)) <$> l)
  = (λ c, PStr (String c EmptyString)) <$> l.
Proof.
  induction l as [|c l [IH1 IH2]]; [done|]. rewrite fmap_cons. split.
  - rewrite filter_cons_False; [done | simpl; tauto].
  - rewrite filter_cons_True; [by rewrite IH2 | simpl; tauto].
Qed.

(** C4: the adapter turns what the raw resolver returned into the pair
    [(new_work, output)]: nothing returned gives [([], None)]; a lone node
    gives [([node], None)]; a lone value that is neither iterable nor a node
    gives [([], value)]; an iterable is split into its nodes and its other
    items, each kept in the order of the iterable, and the output is then the
    list of the other items. *)
Theorem decorated_function_normalizes (f : raw_resolver) args_ kwargs_ h h' v :
  f args_ kwargs_ h = (h', Ok v) →
  ∃ new_work out,
    decorated_function f args_ kwargs_ h = (h', Ok (new_work, out)) ∧
    (v = PNone → new_work = PList [] ∧ out = PNone) ∧
    (is_WorkNode v = true → new_work = PList [v] ∧ out = PNone) ∧
    (v ≠ PNone → is_iterable v = false → is_WorkNode v = false →
       new_work = PList [] ∧ out = v) ∧
    (is_iterable v = true →
       ∃ items, py_iter v = Some items ∧
         new_work = PList (filter (λ x, is_WorkNode x) items) ∧
         out = PList (filter (λ x, ¬ is_WorkNode x) items)).
Proof.
  intros Hf. exists (normalize v).1, (normalize v).2.
  split; [|split; [|split; [|split]]].
  - unfold decorated_function. rewrite (bind_ok _ _ _ _ _ Hf).
    unfold ret. by destruct (normalize v).
  - by intros ->.
  - destruct v; try discriminate. done.
  - intros Hn Hi Hw. destruct v; try done.
  - intros Hi. apply py_iter_is_iterable in Hi as [items Hitems].
    exists items. by rewrite (normalize_iterable _ _ Hitems).
Qed.

Lemma decorated_function_normalizes_witness :
  ∃ new_work out,
    decorated_function child_and_value [] ∅ ∅ = ((child_and_value [] ∅ ∅).1, Ok (new_work, out)) ∧
    new_work = PList [PNode 0] ∧ out = PList [PInt 7].
Proof.
  destruct (decorated_function_normalizes child_and_value [] ∅ ∅
              (child_and_value [] ∅ ∅).1 (PList [PNode 0; PInt 7]))
    as (new_work & out & Hrun & _ & _ & _ & Hit).
  - vm_compute. reflexivity.
  - destruct (Hit eq_refl) as (items & Hitems & -> & ->).
    injection Hitems as <-. eexists _, _. split; [exact Hrun|]. split; reflexivity.
Defined.

(** C9: a raw resolver that returns a string gets the string split into its
    characters: no new work, and the list of the one-character strings as
    output, not the string itself. *)
Theorem string_return_is_split (f : raw_resolver) args_ kwargs_ h h' s :
  f args_ kwargs_ h = (h', Ok (PStr s)) →
  decorated_function f args_ kwargs_ h
  = (h', Ok (PList [],
             PList ((λ c, PStr (String c EmptyString)) <$> String.list_ascii_of_string s))) ∧
  decorated_function f args_ kwargs_ h ≠ (h', Ok (PList [], PStr s)).
Proof.
  intros Hf.
  assert (decorated_function f args_ kwargs_ h
          = (h', Ok (PList [],
               PList ((λ c, PStr (String c EmptyString)) <$> String.list_ascii_of_string s)))) as Heq.
  { unfold decorated_function. rewrite (bind_ok _ _ _ _ _ Hf). unfold ret.
    rewrite (normalize_iterable (PStr s) _ eq_refl).
    by destruct (characters_are_not_nodes (String.list_ascii_of_string s)) as [-> ->]. }
  split; [exact Heq|]. rewrite Heq. intros [=].
Qed.

Lemma string_return_is_split_witness :
  decorated_function (λ _ _, ret (PStr "No tables found")) [] ∅ ∅
  = (∅, Ok (PList [],
            PList (PStr <$> ["N"; "o"; " "; "t"; "a"; "b"; "l"; "e"; "s"; " ";
                             "f"; "o"; "u"; "n"; "d"]))).
Proof.
  apply (string_return_is_split (λ _ _, ret (PStr "No tables found")) [] ∅ ∅ ∅
           "No tables found").
  reflexivity.
Defined.

(** ** The registry *)

(** C6: once a kind is bound, registering it again without [override] fails
    (the assertion of [_register_resolver]) and the registry keeps the first
    resolver; registering it again with [override] succeeds, and the kind then
    resolves to the new resolver. *)
Theorem register_twice k (r1 r2 : resolver) override (reg0 reg : registry) :
  _register_resolver k r1 override reg0 = (reg, Ok tt) →
  lookup_resolver reg k = Ok r1 ∧
  (∃ msg reg', _register_resolver k r2 false reg = (reg', Raise (AssertionError msg)) ∧
               reg' = reg ∧ lookup_resolver reg' k = Ok r1) ∧
  (∃ reg', _register_resolver k r2 true reg = (reg', Ok tt) ∧
           lookup_resolver reg' k = Ok r2).
Proof.
  unfold _register_resolver, lookup_resolver. intros H.
  destruct (override || bool_decide (reg0 !! k = None)); [|discriminate].
  injection H as <-. rewrite lookup_insert_eq.
  split; [done|]. split.
  - rewrite bool_decide_eq_false_2 by (rewrite ?lookup_insert_eq; done).
    simpl. eexists _, _. split; [reflexivity|]. by rewrite ?lookup_insert_eq.
  - simpl. eexists. split; [reflexivity|]. by rewrite ?lookup_insert_eq.
Qed.

Lemma register_twice_witness :
  let reg : gmap WorkloadType resolver :=
    <[roll_table := decorated_function leaf_resolver]> ∅ in
  lookup_resolver reg roll_table = Ok (decorated_function leaf_resolver) ∧
  (∃ msg reg',
     _register_resolver roll_table (decorated_function silent_resolver) false reg
     = (reg', Raise (AssertionError msg)) ∧
     reg' = reg ∧ lookup_resolver reg' roll_table = Ok (decorated_function leaf_resolver)) ∧
  (∃ reg',
     _register_resolver roll_table (decorated_function silent_resolver) true reg
     = (reg', Ok tt) ∧
     lookup_resolver reg' roll_table = Ok (decorated_function silent_resolver)).
Proof.
  apply (register_twice roll_table (decorated_function leaf_resolver)
           (decorated_function silent_resolver) false ∅).
  reflexivity.
Defined.

(** ** The store and the tree linkage *)

Lemma deref_ok id (h : heap) n : h !! id = Some n → deref id h = (h, Ok n).
Proof. unfold deref. by intros ->. Qed.

Lemma update_node_ok id f (h : heap) n :
  h !! id = Some n → update_node id f h = (<[id := f n]> h, Ok tt).
Proof. unfold update_node. by intros ->. Qed.

Lemma iter_path_reverse_within (D : nat → Prop) (h : heap) fuel c :
  (∀ y n p, D y → h !! y = Some n → parent n = Some p → D p) →
  D c → ∀ x, x ∈ iter_path_reverse fuel h c → D x.
Proof.
  intros Hclosed. revert c. induction fuel as [|fuel IH]; intros c Hc x; simpl.
  - by intros ?%elem_of_nil.
  - intros [->|Hx]%elem_of_cons; [done|].
    destruct (h !! c) as [n|] eqn:Hn; simpl in Hx; [|by apply elem_of_nil in Hx].
    destruct (parent n) as [p|] eqn:Hp; [|by apply elem_of_nil in Hx].
    eapply IH; [|exact Hx]. eauto.
Qed.

(** Giving a parentless node [x] the parent [c], when [x] is not above [c]. *)
Lemma set_parent_attach (g : heap) x c xn cn :
  g !! x = Some xn → parent xn = None → g !! c = Some cn → x ≠ c →
  x ∉ iter_path_reverse (S (size g)) g c →
  set_parent x (Some c) g
  = (<[x := with_parent (Some c) xn]> (<[c := with_children (children cn ++ [x]) cn]> g),
     Ok tt).
Proof.
  intros Hx Hp Hc Hne Hpath. unfold set_parent.
  rewrite (bind_ok _ _ _ _ _ (deref_ok _ _ _ Hx)). rewrite Hp.
  destruct (decide (None = Some c)) as [|_]; [done|].
  assert (check_loop x (Some c) g = (g, Ok tt)) as Hloop.
  { unfold check_loop. destruct (decide (c = x)); [congruence|].
    by destruct (decide (x ∈ iter_path_reverse (S (size g)) g c)). }
  rewrite (bind_ok _ _ _ _ _ Hloop). simpl detach.
  rewrite (bind_ok _ _ g g tt) by done. unfold attach.
  rewrite (bind_ok _ _ _ _ _ (update_node_ok _ _ _ _ Hc)).
  apply update_node_ok. by rewrite lookup_insert_ne.
Qed.

Lemma set_parent_same (g : heap) x xn v :
  g !! x = Some xn → parent xn = v → set_parent x v g = (g, Ok tt).
Proof.
  intros Hx Hp. unfold set_parent.
  rewrite (bind_ok _ _ _ _ _ (deref_ok _ _ _ Hx)).
  by destruct (decide (parent xn = v)).
Qed.

(** ** The constructor *)

Lemma fresh_not_in (h : heap) : h !! fresh (dom h) = None.
Proof. apply not_elem_of_dom, is_fresh. Qed.

Lemma WorkNode_init_spec k a nm (po : option node_id) (h : heap) :
  parents_closed h →
  (∀ p, po = Some p → is_Some (h !! p)) →
  ∃ h', WorkNode_init k a nm (from_option PNode PNone po) h = (h', Ok (fresh (dom h))) ∧
    h !! fresh (dom h) = None ∧
    h' !! fresh (dom h)
    = Some (mkWorkNode k a ∅ false PNone (if truthy nm then nm else default_name k) po []) ∧
    (∀ p pn, po = Some p → h !! p = Some pn →
       h' !! p = Some (with_children (children pn ++ [fresh (dom h)]) pn)) ∧
    (∀ x, x ≠ fresh (dom h) → po ≠ Some x → h' !! x = h !! x).
Proof.
  intros Hclosed Hpo. pose proof (fresh_not_in h) as Hfresh.
  set (self := fresh (dom h)) in *.
  set (n0 := mkWorkNode k a ∅ false PNone PNone None []).
  unfold WorkNode_init.
  rewrite (bind_ok _ _ h (<[self := n0]> h) self) by done.
  destruct po as [p|]; simpl from_option.
  - destruct (Hpo p eq_refl) as [pn Hpn].
    assert (p ≠ self) as Hne by (intros ->; congruence).
    unfold parent_argument.
    assert (deref p (<[self := n0]> h) = (<[self := n0]> h, Ok pn)) as Hd.
    { apply deref_ok. by rewrite lookup_insert_ne. }
    rewrite (bind_ok _ _ _ _ _ (bind_ok _ _ _ _ _ Hd)).
    erewrite (bind_ok _ _ _ _ tt); cycle 1.
    { apply (set_parent_attach _ self p n0 pn); [by rewrite lookup_insert_eq|done| |done|].
      - by rewrite lookup_insert_ne.
      - intros Hin.
        apply (iter_path_reverse_within (λ y, is_Some (h !! y))) in Hin.
        + rewrite Hfresh in Hin. by destruct Hin.
        + intros y n q Hy Hn Hq. destruct Hy as [ny Hy].
          rewrite lookup_insert_ne in Hn by (intros <-; congruence).
          eapply Hclosed; eauto.
        + eauto. }
    erewrite (bind_ok _ _ _ _ tt); cycle 1.
    { apply update_node_ok. by rewrite lookup_insert_eq. }
    eexists. split; [reflexivity|]. split; [done|]. split; [|split].
    + by rewrite lookup_insert_eq.
    + intros p' pn' [= <-] Hpn'. rewrite Hpn in Hpn'. injection Hpn' as <-.
      rewrite !(lookup_insert_ne _ self) by done. by rewrite lookup_insert_eq.
    + intros x Hx Hxp. rewrite !(lookup_insert_ne _ self) by done.
      rewrite lookup_insert_ne by congruence. by rewrite lookup_insert_ne.
  - unfold parent_argument.
    rewrite (bind_ok _ _ _ (<[self := n0]> h) None) by done.
    erewrite (bind_ok _ _ _ _ tt); cycle 1.
    { apply (set_parent_same _ self n0); [by rewrite lookup_insert_eq|done]. }
    erewrite (bind_ok _ _ _ _ tt); cycle 1.
    { apply update_node_ok. by rewrite lookup_insert_eq. }
    eexists. split; [reflexivity|]. split; [done|]. split; [|split].
    + by rewrite lookup_insert_eq.
    + intros ? ? [=].
    + intros x Hx _. by rewrite !lookup_insert_ne.
Qed.
Lemma parents_closedb_sound (h : heap) : parents_closedb h = true → parents_closed h.
Proof.
  unfold parents_closedb. rewrite forallb_forall. intros H x n p Hx Hp.
  assert (In (x, n) (map_to_list h)) as Hin.
  { apply list_elem_of_In. by apply elem_of_map_to_list. }
  apply H in Hin. simpl in Hin. rewrite Hp in Hin.
  by apply bool_decide_eq_true in Hin.
Qed.

Lemma filter_none_outside (l : list string) (ps : list string) :
  Forall (λ p, p ∈ ps) l → filter (λ p, p ∉ ps) l = [].
Proof.
  induction 1 as [|p l Hp _ IH]; [done|].
  rewrite filter_cons_False; [done|]. by intros ?.
Qed.

(** What a well-formed constructor call does to the store. *)
Lemma WorkNode_call_spec k kw (po : option node_id) (h : heap) :
  parents_closed h →
  Forall (λ p, p ∈ WorkNode_parameters) kw.*1 →
  keyword_default kw "parent" PNone = from_option PNode PNone po →
  (∀ p, po = Some p → is_Some (h !! p)) →
  ∃ h', WorkNode_call k kw h = (h', Ok (fresh (dom h))) ∧
    h !! fresh (dom h) = None ∧
    h' !! fresh (dom h)
    = Some (mkWorkNode k (keyword_default kw "args" (PTuple [])) ∅ false PNone
              (if truthy (keyword_default kw "name" PNone)
               then keyword_default kw "name" PNone else default_name k)
              po []) ∧
    (∀ p pn, po = Some p → h !! p = Some pn →
       h' !! p = Some (with_children (children pn ++ [fresh (dom h)]) pn)) ∧
    (∀ x, x ≠ fresh (dom h) → po ≠ Some x → h' !! x = h !! x).
Proof.
  intros Hclosed Hkw Hparent Hpo. unfold WorkNode_call.
  rewrite (filter_none_outside _ _ Hkw), Hparent.
  by apply WorkNode_init_spec.
Qed.

(** C8 (as amended): a call of the constructor with a kind and keywords among
    [args], [name] and [parent], the parent being absent, [None] or a node of
    the store, makes a new node that is not finished, has no output, has an
    empty [kwargs] and no children, carries the [args] given (or the empty
    tuple), and is named by [name] when that is truthy and by the quoted
    name of the kind otherwise; with a parent, the node is appended to the
    children of that parent and has it as [parent]; every other node is left
    as it was. *)
Theorem WorkNode_call_constructs k kw (po : option node_id) (h : heap) :
  parents_closed h →
  Forall (λ p, p ∈ WorkNode_parameters) kw.*1 →
  keyword_default kw "parent" PNone = from_option PNode PNone po →
  (∀ p, po = Some p → is_Some (h !! p)) →
  ∃ h', WorkNode_call k kw h = (h', Ok (fresh (dom h))) ∧
    h !! fresh (dom h) = None ∧
    h' !! fresh (dom h)
    = Some (mkWorkNode k (keyword_default kw "args" (PTuple [])) ∅ false PNone
              (if truthy (keyword_default kw "name" PNone)
               then keyword_default kw "name" PNone else default_name k)
              po []) ∧
    (∀ p pn, po = Some p → h !! p = Some pn →
       h' !! p = Some (with_children (children pn ++ [fresh (dom h)]) pn)) ∧
    (∀ x, x ≠ fresh (dom h) → po ≠ Some x → h' !! x = h !! x).
Proof.
  intros Hclosed Hkw Hparent Hpo. unfold WorkNode_call.
  rewrite (filter_none_outside _ _ Hkw), Hparent.
  by apply WorkNode_init_spec.
Qed.

Lemma WorkNode_call_constructs_witness :
  ∃ h', WorkNode_call roll_table [("args", PTuple [PInt 6]); ("parent", PNode 0)]
          (single_root parse_table) = (h', Ok 1) ∧
    h' !! 1 = Some (mkWorkNode roll_table (PTuple [PInt 6]) ∅ false PNone
                      (PStr "'roll_table'") (Some 0) []) ∧
    children <$> h' !! 0 = Some [1].
Proof.
  destruct (WorkNode_call_constructs roll_table
              [("args", PTuple [PInt 6]); ("parent", PNode 0)] (Some 0)
              (single_root parse_table))
    as (h' & Hcall & _ & Hself & Hparent & _).
  - apply parents_closedb_sound. vm_compute. reflexivity.
  - repeat constructor; set_solver.
  - reflexivity.
  - intros p [= <-]. vm_compute. eauto.
  - assert (fresh (dom (single_root parse_table)) = 1) as Hid
      by (vm_compute; reflexivity).
    rewrite Hid in Hcall, Hself, Hparent.
    exists h'. split; [exact Hcall|]. split; [exact Hself|].
    rewrite (Hparent 0 (mkWorkNode parse_table (PTuple []) ∅ false PNone
                          (PStr "'parse_table'") None []) eq_refl)
      by (vm_compute; reflexivity).
    reflexivity.
Defined.

(** C8, the counterexample: the constructor has no [kwargs] parameter, so a
    call that passes one is refused and no node is made. *)
Lemma WorkNode_call_rejects_kwargs :
  WorkNode_call parse_op [("args", PTuple []); ("kwargs", PObj [])] ∅
  = (∅, Raise (TypeError "__init__() got an unexpected keyword argument 'kwargs'")).
Proof. vm_compute. reflexivity. Qed.

(** ** Pre-order listings *)

Lemma with_children_twice a b n :
  with_children a (with_children b n) = with_children a n.
Proof. done. Qed.

Lemma with_children_same n : with_children (children n) n = n.
Proof. by destruct n. Qed.

Lemma preorder_of_head (h : heap) r l : preorder_of h r l → ∃ l', l = r :: l'.
Proof. destruct 1; eauto. Qed.

Lemma preorder_forest_nil_inv (h : heap) l : preorder_forest h [] l → l = [].
Proof. by inversion 1. Qed.

Lemma preorder_forest_cons_inv (h : heap) c cs l :
  preorder_forest h (c :: cs) l →
  ∃ l1 l2, l = l1 ++ l2 ∧ preorder_of h c l1 ∧ preorder_forest h cs l2.
Proof. inversion 1; subst; eauto. Qed.

Lemma preorder_forest_app (h : heap) a b la lb :
  preorder_forest h a la → preorder_forest h b lb →
  preorder_forest h (a ++ b) (la ++ lb).
Proof.
  intros Ha Hb. induction Ha as [|c cs l1 l2 Hc Hcs IH]; [done|].
  rewrite <- app_assoc. simpl. by constructor.
Qed.

Lemma preorder_forest_app_inv (h : heap) a b l :
  preorder_forest h (a ++ b) l →
  ∃ la lb, l = la ++ lb ∧ preorder_forest h a la ∧ preorder_forest h b lb.
Proof.
  revert l. induction a as [|c a IH]; intros l; simpl.
  - intros H. exists [], l. split; [done|]. split; [constructor|done].
  - intros (l1 & l2 & -> & Hc & Hrest)%preorder_forest_cons_inv.
    destruct (IH _ Hrest) as (la & lb & -> & Ha & Hb).
    exists (l1 ++ la), lb. split; [by rewrite app_assoc|].
    split; [by constructor|done].
Qed.

(** Every listed node is in the store. *)
Lemma preorder_listed_mut (h : heap) :
  (∀ r l, preorder_of h r l → ∀ x, x ∈ l → is_Some (h !! x)) ∧
  (∀ cs l, preorder_forest h cs l → ∀ x, x ∈ l → is_Some (h !! x)).
Proof.
  split.
  - apply (preorder_of_mut h
             (λ _ l, ∀ x, x ∈ l → is_Some (h !! x))
             (λ _ l, ∀ x, x ∈ l → is_Some (h !! x))).
    + intros r n l Hr _ IH x [->|Hx]%elem_of_cons; eauto.
    + by intros x ?%elem_of_nil.
    + intros c cs l1 l2 _ IH1 _ IH2 x [?|?]%elem_of_app; eauto.
  - apply (preorder_forest_mut h
             (λ _ l, ∀ x, x ∈ l → is_Some (h !! x))
             (λ _ l, ∀ x, x ∈ l → is_Some (h !! x))).
    + intros r n l Hr _ IH x [->|Hx]%elem_of_cons; eauto.
    + by intros x ?%elem_of_nil.
    + intros c cs l1 l2 _ IH1 _ IH2 x [?|?]%elem_of_app; eauto.
Qed.

Lemma preorder_of_listed (h : heap) r l x :
  preorder_of h r l → x ∈ l → is_Some (h !! x).
Proof. intros H. by apply (proj1 (preorder_listed_mut h) r l H). Qed.

Lemma preorder_forest_listed (h : heap) cs l x :
  preorder_forest h cs l → x ∈ l → is_Some (h !! x).
Proof. intros H. by apply (proj2 (preorder_listed_mut h) cs l H). Qed.

(** The roots of a forest are listed. *)
Lemma preorder_forest_roots (h : heap) cs l x :
  preorder_forest h cs l → x ∈ cs → x ∈ l.
Proof.
  induction 1 as [|c cs l1 l2 Hc Hcs IH]; [by intros ?%elem_of_nil|].
  intros [->|Hx]%elem_of_cons; apply elem_of_app.
  - left. destruct (preorder_of_head _ _ _ Hc) as [l' ->]. by left.
  - right. by apply IH.
Qed.

(** A listing is a function of the store. *)
Lemma preorder_deterministic_mut (h : heap) :
  (∀ r l, preorder_of h r l → ∀ l', preorder_of h r l' → l = l') ∧
  (∀ cs l, preorder_forest h cs l → ∀ l', preorder_forest h cs l' → l = l').
Proof.
  assert (∀ r n l,
    h !! r = Some n → preorder_forest h (children n) l →
    (∀ l', preorder_forest h (children n) l' → l = l') →
    ∀ l', preorder_of h r l' → r :: l = l') as Hnode.
  { intros r n l Hr _ IH l' H'. inversion H' as [r' n' l0 Hr' Hf']; subst.
    rewrite Hr in Hr'. injection Hr' as <-. f_equal. by apply IH. }
  assert (∀ c cs l1 l2,
    preorder_of h c l1 → (∀ l', preorder_of h c l' → l1 = l') →
    preorder_forest h cs l2 → (∀ l', preorder_forest h cs l' → l2 = l') →
    ∀ l', preorder_forest h (c :: cs) l' → l1 ++ l2 = l') as Hcons.
  { intros c cs l1 l2 _ IH1 _ IH2 l'
      (l1' & l2' & -> & Hc & Hcs)%preorder_forest_cons_inv.
    f_equal; eauto. }
  split.
  - apply (preorder_of_mut h
             (λ r l, ∀ l', preorder_of h r l' → l = l')
             (λ cs l, ∀ l', preorder_forest h cs l' → l = l')); try done.
    by intros l' ->%preorder_forest_nil_inv.
  - apply (preorder_forest_mut h
             (λ r l, ∀ l', preorder_of h r l' → l = l')
             (λ cs l, ∀ l', preorder_forest h cs l' → l = l')); try done.
    by intros l' ->%preorder_forest_nil_inv.
Qed.

Lemma preorder_forest_deterministic (h : heap) cs l l' :
  preorder_forest h cs l → preorder_forest h cs l' → l = l'.
Proof. intros H. by apply (proj2 (preorder_deterministic_mut h) cs l H). Qed.

(** A listing only depends on the children of the nodes it lists. *)
Lemma preorder_transfer_mut (h h2 : heap) :
  (∀ r l, preorder_of h r l →
     (∀ x, x ∈ l → same_children h h2 x) → preorder_of h2 r l) ∧
  (∀ cs l, preorder_forest h cs l →
     (∀ x, x ∈ l → same_children h h2 x) → preorder_forest h2 cs l).
Proof.
  assert (∀ r n l,
    h !! r = Some n → preorder_forest h (children n) l →
    ((∀ x, x ∈ l → same_children h h2 x) → preorder_forest h2 (children n) l) →
    (∀ x, x ∈ r :: l → same_children h h2 x) → preorder_of h2 r (r :: l)) as Hnode.
  { intros r n l Hr _ IH Hsame.
    pose proof (Hsame r ltac:(by left)) as Hr2. unfold same_children in Hr2.
    rewrite Hr in Hr2. simpl in Hr2.
    destruct (h2 !! r) as [n2|] eqn:Hn2; [|done]. injection Hr2 as Hc.
    apply (preorder_node h2 r n2); [done|]. rewrite Hc. apply IH.
    intros x Hx. apply Hsame. by right. }
  assert (∀ c cs l1 l2,
    preorder_of h c l1 →
    ((∀ x, x ∈ l1 → same_children h h2 x) → preorder_of h2 c l1) →
    preorder_forest h cs l2 →
    ((∀ x, x ∈ l2 → same_children h h2 x) → preorder_forest h2 cs l2) →
    (∀ x, x ∈ l1 ++ l2 → same_children h h2 x) →
    preorder_forest h2 (c :: cs) (l1 ++ l2)) as Hcons.
  { intros c cs l1 l2 _ IH1 _ IH2 Hsame.
    constructor; [apply IH1|apply IH2]; intros x Hx; apply Hsame, elem_of_app; eauto. }
  split.
  - apply (preorder_of_mut h
             (λ r l, (∀ x, x ∈ l → same_children h h2 x) → preorder_of h2 r l)
             (λ cs l, (∀ x, x ∈ l → same_children h h2 x) → preorder_forest h2 cs l));
      try done. intros _. constructor.
  - apply (preorder_forest_mut h
             (λ r l, (∀ x, x ∈ l → same_children h h2 x) → preorder_of h2 r l)
             (λ cs l, (∀ x, x ∈ l → same_children h h2 x) → preorder_forest h2 cs l));
      try done. intros _. constructor.
Qed.

Lemma preorder_of_transfer (h h2 : heap) r l :
  preorder_of h r l → (∀ x, x ∈ l → same_children h h2 x) → preorder_of h2 r l.
Proof. apply (proj1 (preorder_transfer_mut h h2)). Qed.

Lemma preorder_forest_transfer (h h2 : heap) cs l :
  preorder_forest h cs l → (∀ x, x ∈ l → same_children h h2 x) →
  preorder_forest h2 cs l.
Proof. apply (proj2 (preorder_transfer_mut h h2)). Qed.

(** What is reachable from a node is what its listing lists. *)
Lemma reachable_listed (h : heap) r x l :
  reachable h r x → preorder_of h r l → x ∈ l.
Proof.
  intros Hreach. revert l. induction Hreach as [r|r n c x Hr Hc _ IH]; intros l Hl.
  - destruct (preorder_of_head _ _ _ Hl) as [l' ->]. by left.
  - inversion Hl as [r' n' l' Hr' Hf]; subst. rewrite Hr in Hr'. injection Hr' as <-.
    right. clear Hl Hr. induction Hf as [|c' cs l1 l2 Hc' Hcs IHf];
      [by apply elem_of_nil in Hc|].
    apply elem_of_app. apply elem_of_cons in Hc as [->|Hc]; [left; by apply IH|].
    right. by apply IHf.
Qed.

Lemma listed_reachable_mut (h : heap) :
  (∀ r l, preorder_of h r l → ∀ x, x ∈ l → reachable h r x) ∧
  (∀ cs l, preorder_forest h cs l → ∀ x, x ∈ l → ∃ c, c ∈ cs ∧ reachable h c x).
Proof.
  assert (∀ r n l,
    h !! r = Some n → preorder_forest h (children n) l →
    (∀ x, x ∈ l → ∃ c, c ∈ children n ∧ reachable h c x) →
    ∀ x, x ∈ r :: l → reachable h r x) as Hnode.
  { intros r n l Hr _ IH x [->|Hx]%elem_of_cons; [constructor|].
    destruct (IH x Hx) as (c & Hc & Hcx). by eapply reachable_child. }
  assert (∀ c cs l1 l2,
    preorder_of h c l1 → (∀ x, x ∈ l1 → reachable h c x) →
    preorder_forest h cs l2 → (∀ x, x ∈ l2 → ∃ c', c' ∈ cs ∧ reachable h c' x) →
    ∀ x, x ∈ l1 ++ l2 → ∃ c', c' ∈ c :: cs ∧ reachable h c' x) as Hcons.
  { intros c cs l1 l2 _ IH1 _ IH2 x [Hx|Hx]%elem_of_app.
    - exists c. split; [by left|eauto].
    - destruct (IH2 x Hx) as (c' & Hc' & Hr). exists c'. split; [by right|done]. }
  split.
  - apply (preorder_of_mut h
             (λ r l, ∀ x, x ∈ l → reachable h r x)
             (λ cs l, ∀ x, x ∈ l → ∃ c, c ∈ cs ∧ reachable h c x)); try done.
    by intros x ?%elem_of_nil.
  - apply (preorder_forest_mut h
             (λ r l, ∀ x, x ∈ l → reachable h r x)
             (λ cs l, ∀ x, x ∈ l → ∃ c, c ∈ cs ∧ reachable h c x)); try done.
    by intros x ?%elem_of_nil.
Qed.

Lemma preorder_of_reachable (h : heap) r l x :
  preorder_of h r l → (reachable h r x ↔ x ∈ l).
Proof.
  intros Hl. split.
  - intros Hr. by eapply reachable_listed.
  - by apply (proj1 (listed_reachable_mut h) r l Hl).
Qed.

(** ** Growing a listed tree below one of its nodes *)

Lemma split_at_unique (l1 l2 r1 r2 : list nat) c :
  l1 ++ c :: r1 = l2 ++ c :: r2 → c ∉ l1 → c ∉ l2 → l1 = l2 ∧ r1 = r2.
Proof.
  revert l2. induction l1 as [|a l1 IH]; intros [|b l2]; simpl; intros Heq H1 H2.
  - by injection Heq as ->.
  - injection Heq as <- _. exfalso. apply H2. by left.
  - injection Heq as -> _. exfalso. apply H1. by left.
  - injection Heq as -> Heq. destruct (IH l2 Heq) as [-> ->]; [| |done].
    + intros ?. apply H1. by right.
    + intros ?. apply H2. by right.
Qed.

Ltac reassociate :=
  repeat (rewrite <- app_assoc || rewrite <- app_comm_cons); reflexivity.

Section graft.
Context (h h2 : heap) (c : node_id) (n n2 : WorkNode).
Context (ids sub lnew : list node_id).
Hypothesis Hothers : ∀ x, is_Some (h !! x) → x ≠ c → same_children h h2 x.
Hypothesis Hc : h !! c = Some n.
Hypothesis Hc2 : h2 !! c = Some n2.
Hypothesis Hkids : children n2 = children n ++ ids.
Hypothesis Hsub : preorder_forest h (children n) sub.
Hypothesis Hnew : preorder_forest h2 ids lnew.

Lemma graft_untouched_of r l :
  preorder_of h r l → c ∉ l → preorder_of h2 r l.
Proof using Hothers.
  intros Hl Hnotin. apply (preorder_of_transfer h h2 r l Hl).
  intros x Hx. apply Hothers; [by eapply preorder_of_listed|].
  by intros ->.
Qed.

Lemma graft_untouched_forest cs l :
  preorder_forest h cs l → c ∉ l → preorder_forest h2 cs l.
Proof using Hothers.
  intros Hl Hnotin. apply (preorder_forest_transfer h h2 cs l Hl).
  intros x Hx. apply Hothers; [by eapply preorder_forest_listed|].
  by intros ->.
Qed.

Lemma graft_mut :
  (∀ r l, preorder_of h r l → NoDup l → c ∈ l →
     ∃ l1 l2, l = l1 ++ c :: sub ++ l2 ∧
              preorder_of h2 r (l1 ++ c :: sub ++ lnew ++ l2)) ∧
  (∀ cs l, preorder_forest h cs l → NoDup l → c ∈ l →
     ∃ l1 l2, l = l1 ++ c :: sub ++ l2 ∧
              preorder_forest h2 cs (l1 ++ c :: sub ++ lnew ++ l2)).
Proof using All.
  assert (∀ r n' l,
    h !! r = Some n' → preorder_forest h (children n') l →
    (NoDup l → c ∈ l →
       ∃ l1 l2, l = l1 ++ c :: sub ++ l2 ∧
                preorder_forest h2 (children n') (l1 ++ c :: sub ++ lnew ++ l2)) →
    NoDup (r :: l) → c ∈ r :: l →
    ∃ l1 l2, r :: l = l1 ++ c :: sub ++ l2 ∧
             preorder_of h2 r (l1 ++ c :: sub ++ lnew ++ l2)) as Hnode.
  { intros r n' l Hr Hf IH [Hrl Hnd]%NoDup_cons Hin.
    destruct (decide (r = c)) as [->|Hne].
    - rewrite Hc in Hr. injection Hr as <-.
      pose proof (preorder_forest_deterministic _ _ _ _ Hf Hsub) as ->.
      exists [], []. rewrite !app_nil_r. split; [done|]. simpl.
      apply (preorder_node h2 c n2); [done|]. rewrite Hkids.
      apply preorder_forest_app; [|done]. by apply graft_untouched_forest.
    - apply elem_of_cons in Hin as [->|Hin]; [done|].
      destruct (IH Hnd Hin) as (l1 & l2 & -> & Hf2).
      exists (r :: l1), l2. split; [done|]. simpl.
      pose proof (Hothers r ltac:(eauto) Hne) as Hsame.
      unfold same_children in Hsame. rewrite Hr in Hsame. simpl in Hsame.
      destruct (h2 !! r) as [nr|] eqn:Hnr; [|done]. injection Hsame as Hsame.
      apply (preorder_node h2 r nr); [done|]. by rewrite Hsame. }
  assert (∀ c0 cs l1 l2,
    preorder_of h c0 l1 →
    (NoDup l1 → c ∈ l1 →
       ∃ la lb, l1 = la ++ c :: sub ++ lb ∧
                preorder_of h2 c0 (la ++ c :: sub ++ lnew ++ lb)) →
    preorder_forest h cs l2 →
    (NoDup l2 → c ∈ l2 →
       ∃ la lb, l2 = la ++ c :: sub ++ lb ∧
                preorder_forest h2 cs (la ++ c :: sub ++ lnew ++ lb)) →
    NoDup (l1 ++ l2) → c ∈ l1 ++ l2 →
    ∃ la lb, l1 ++ l2 = la ++ c :: sub ++ lb ∧
             preorder_forest h2 (c0 :: cs) (la ++ c :: sub ++ lnew ++ lb)) as Hcons.
  { intros c0 cs l1 l2 H1 IH1 H2 IH2 (Hnd1 & Hdisj & Hnd2)%NoDup_app Hin.
    apply elem_of_app in Hin as [Hin|Hin].
    - destruct (IH1 Hnd1 Hin) as (la & lb & -> & Hg).
      exists la, (lb ++ l2). split; [reassociate|].
      replace (la ++ c :: sub ++ lnew ++ lb ++ l2)
        with ((la ++ c :: sub ++ lnew ++ lb) ++ l2) by reassociate.
      constructor; [done|]. apply graft_untouched_forest; [done|].
      by apply Hdisj.
    - destruct (IH2 Hnd2 Hin) as (la & lb & -> & Hg).
      exists (l1 ++ la), lb. split; [reassociate|].
      rewrite <- app_assoc. constructor; [|done].
      apply graft_untouched_of; [done|]. intros Hc1. by apply (Hdisj c Hc1). }
  split.
  - apply (preorder_of_mut h
      (λ r l, NoDup l → c ∈ l →
         ∃ l1 l2, l = l1 ++ c :: sub ++ l2 ∧
                  preorder_of h2 r (l1 ++ c :: sub ++ lnew ++ l2))
      (λ cs l, NoDup l → c ∈ l →
         ∃ l1 l2, l = l1 ++ c :: sub ++ l2 ∧
                  preorder_forest h2 cs (l1 ++ c :: sub ++ lnew ++ l2))); try done.
    by intros _ ?%elem_of_nil.
  - apply (preorder_forest_mut h
      (λ r l, NoDup l → c ∈ l →
         ∃ l1 l2, l = l1 ++ c :: sub ++ l2 ∧
                  preorder_of h2 r (l1 ++ c :: sub ++ lnew ++ l2))
      (λ cs l, NoDup l → c ∈ l →
         ∃ l1 l2, l = l1 ++ c :: sub ++ l2 ∧
                  preorder_forest h2 cs (l1 ++ c :: sub ++ lnew ++ l2))); try done.
    by intros _ ?%elem_of_nil.
Qed.

(** The new nodes are listed right after the old subtree of [c]. *)
Lemma graft_listing r l1 l2 :
  preorder_of h r (l1 ++ c :: sub ++ l2) →
  NoDup (l1 ++ c :: sub ++ l2) →
  preorder_of h2 r (l1 ++ c :: sub ++ lnew ++ l2).
Proof using All.
  intros Hl Hnd.
  destruct (proj1 graft_mut r _ Hl Hnd) as (la & lb & Heq & Hg).
  { apply elem_of_app. right. by left. }
  assert (c ∉ l1) as H1.
  { apply NoDup_app in Hnd as (_ & Hdisj & _). intros Hin.
    apply (Hdisj c Hin). by left. }
  assert (c ∉ la) as Ha.
  { rewrite Heq in Hnd. apply NoDup_app in Hnd as (_ & Hdisj & _). intros Hin.
    apply (Hdisj c Hin). by left. }
  destruct (split_at_unique _ _ _ _ _ Heq H1 Ha) as [<- Hrest].
  apply app_inv_head in Hrest as <-. done.
Qed.
End graft.

(** ** One node's work *)

(** The loop [for child in new_work: child.parent = self], for new parentless
    children; [D] holds of the nodes that were there before the resolver ran. *)
Lemma attach_children (D : nat → Prop) c ids :
  ∀ (g : heap) cn,
    NoDup ids → (∀ x, x ∈ ids → ¬ D x) → D c →
    (∀ y m p, D y → g !! y = Some m → parent m = Some p → D p) →
    g !! c = Some cn →
    (∀ x, x ∈ ids → ∃ m, g !! x = Some m ∧ parent m = None) →
    ∃ g', for_each (attach_child c) (PNode <$> ids) g = (g', Ok tt) ∧
      g' !! c = Some (with_children (children cn ++ ids) cn) ∧
      (∀ x, x ∈ ids → ∃ m, g !! x = Some m ∧ g' !! x = Some (with_parent (Some c) m)) ∧
      (∀ y, y ≠ c → y ∉ ids → g' !! y = g !! y).
Proof.
  induction ids as [|x ids IH]; intros g cn Hnd Hnew Hc Hclosed Hcn Hparentless.
  - exists g. split; [done|]. rewrite app_nil_r, with_children_same.
    split; [done|]. split; [|done]. by intros x ?%elem_of_nil.
  - apply NoDup_cons in Hnd as [Hx Hnd].
    destruct (Hparentless x ltac:(by left)) as (xm & Hxm & Hxp).
    assert (x ≠ c) as Hxc.
    { intros ->. by apply (Hnew c ltac:(by left)). }
    assert (x ∉ iter_path_reverse (S (size g)) g c) as Hpath.
    { intros Hin. apply (Hnew x ltac:(by left)).
      exact (iter_path_reverse_within D g _ c Hclosed Hc x Hin). }
    pose proof (set_parent_attach g x c xm cn Hxm Hxp Hcn Hxc Hpath) as Hset.
    set (g1 := <[x := with_parent (Some c) xm]>
                 (<[c := with_children (children cn ++ [x]) cn]> g)) in *.
    destruct (IH g1 (with_children (children cn ++ [x]) cn)) as (g' & Hrun & Hc' & Hids & Hrest).
    + done.
    + intros y Hy. apply Hnew. by right.
    + done.
    + intros y m p Hy Hm Hp. unfold g1 in Hm.
      rewrite lookup_insert_ne in Hm.
      2:{ intros <-. by apply (Hnew x ltac:(by left)). }
      destruct (decide (y = c)) as [->|Hyc].
      * rewrite lookup_insert_eq in Hm. injection Hm as <-. by eapply Hclosed.
      * rewrite lookup_insert_ne in Hm by done. by eapply Hclosed.
    + unfold g1. rewrite lookup_insert_ne by done. by rewrite lookup_insert_eq.
    + intros y Hy. destruct (Hparentless y ltac:(by right)) as (m & Hm & Hp).
      exists m. split; [|done]. unfold g1.
      rewrite lookup_insert_ne by (intros <-; done).
      rewrite lookup_insert_ne; [done|]. intros <-. by apply (Hnew c ltac:(by right)).
    + exists g'. split.
      { simpl. unfold attach_child at 1. by rewrite (bind_ok _ _ _ _ _ Hset). }
      split; [|split].
      * rewrite Hc'. simpl. rewrite with_children_twice. f_equal. f_equal.
        by rewrite <- app_assoc.
      * intros y [->|Hy]%elem_of_cons.
        -- exists xm. split; [done|]. rewrite Hrest by done.
           unfold g1. by rewrite lookup_insert_eq.
        -- destruct (Hids y Hy) as (m & Hm & Hm'). exists m. split; [|done].
           unfold g1 in Hm. rewrite lookup_insert_ne in Hm by (intros <-; done).
           rewrite lookup_insert_ne in Hm; [done|].
           intros <-. by apply (Hnew c ltac:(by right)).
      * intros y Hyc Hy. apply not_elem_of_cons in Hy as [Hyx Hy].
        rewrite Hrest by done. unfold g1. by rewrite !lookup_insert_ne.
Qed.

(** What [do_my_work] does to the store under the resolver contract. *)
Lemma do_my_work_step P (reg : registry) c (h : heap) n h' res :
  registry_well_behaved P reg →
  parents_closed h →
  h !! c = Some n →
  do_my_work reg c h = (h', res) →
  match res with
  | Raise e =>
      (∀ x m, h !! x = Some m → h' !! x = Some m) ∧ parents_closed h'
  | Ok _ =>
      ∃ (h1 : heap) ids lnew out,
        (∀ x m, h !! x = Some m → h1 !! x = Some m) ∧
        preorder_forest h1 ids lnew ∧
        NoDup lnew ∧
        (∀ x, x ∈ lnew → h !! x = None) ∧
        (∀ x, x ∈ lnew → ∃ m, h1 !! x = Some m ∧ P m) ∧
        h' !! c = Some (with_finished true
                          (with_children (children n ++ ids) (with_output out n))) ∧
        (∀ x, x ∈ ids → ∃ m, h1 !! x = Some m ∧ h' !! x = Some (with_parent (Some c) m)) ∧
        (∀ x, x ≠ c → x ∉ ids → h' !! x = h1 !! x) ∧
        parents_closed h'
  end.
Proof.
  intros Hreg Hclosed Hn. unfold do_my_work.
  rewrite (bind_ok _ _ _ _ _ (deref_ok _ _ _ Hn)). unfold lookup_resolver.
  destruct (reg !! work_type n) as [r|] eqn:Hr.
  2:{ intros [= <- <-]. done. }
  destruct (py_iter (args n)) as [args_|].
  2:{ intros [= <- <-]. done. }
  intros Hrun. apply bind_inv in Hrun as [(h1 & [new_work out] & Hcall & Hrun)|(e & Hcall & ->)].
  2:{ destruct (Hreg _ _ Hr _ _ _ _ _ Hclosed Hcall) as (Hframe & Hclosed1 & _). done. }
  destruct (Hreg _ _ Hr _ _ _ _ _ Hclosed Hcall)
    as (Hframe & Hclosed1 & ids & lnew & -> & Hforest & Hnd & Hfresh & HP & Hroots).
  pose proof (Hframe _ _ Hn) as Hn1.
  rewrite (bind_ok _ _ _ _ _ (update_node_ok _ (with_output out) _ _ Hn1)) in Hrun.
  set (g := <[c := with_output out n]> h1) in *.
  assert (∀ x, x ∈ ids → h !! x = None) as Hidsfresh.
  { intros x Hx. apply Hfresh. by eapply preorder_forest_roots. }
  assert (NoDup ids) as Hndids.
  { clear -Hforest Hnd. induction Hforest as [|c cs l1 l2 Hc Hcs IH]; [constructor|].
    apply NoDup_app in Hnd as (Hnd1 & Hdisj & Hnd2). constructor; [|by apply IH].
    intros Hin. destruct (preorder_of_head _ _ _ Hc) as [l' ->].
    apply (Hdisj c); [by left|]. by eapply preorder_forest_roots. }
  destruct (attach_children (λ y, is_Some (h !! y)) c ids g (with_output out n))
    as (g' & Hloop & Hc' & Hids & Hrest).
  { done. }
  { intros x Hx [m Hm]. rewrite (Hidsfresh x Hx) in Hm. done. }
  { eauto. }
  { intros y m p [my Hy] Hm Hp. unfold g in Hm.
    destruct (decide (y = c)) as [->|Hyc].
    - rewrite lookup_insert_eq in Hm. injection Hm as <-.
      exact (Hclosed _ _ _ Hn Hp).
    - rewrite lookup_insert_ne in Hm by done.
      rewrite (Hframe _ _ Hy) in Hm. injection Hm as <-.
      exact (Hclosed _ _ _ Hy Hp). }
  { unfold g. by rewrite lookup_insert_eq. }
  { intros x Hx. destruct (Hroots x Hx) as (m & Hm & Hp). exists m. split; [|done].
    unfold g. rewrite lookup_insert_ne; [done|].
    intros <-. rewrite (Hidsfresh c Hx) in Hn. done. }
  assert ((if truthy (PList (PNode <$> ids))
           then match py_iter (PList (PNode <$> ids)) with
                | Some items => for_each (attach_child c) items
                | None => raise (TypeError "object is not iterable")
                end
           else ret tt) g = (g', Ok tt)) as Hattach.
  { destruct ids; [|exact Hloop]. simpl. simpl in Hloop. done. }
  rewrite (bind_ok _ _ _ _ _ Hattach) in Hrun.
  rewrite (update_node_ok _ _ _ _ Hc') in Hrun. injection Hrun as Hh' <-.
  assert (h' !! c = Some (with_finished true
                            (with_children (children n ++ ids) (with_output out n)))) as Hc2.
  { rewrite <- Hh'. by rewrite lookup_insert_eq. }
  assert (∀ x, x ≠ c → h' !! x = g' !! x) as Hne.
  { intros x Hx. rewrite <- Hh'. by rewrite lookup_insert_ne. }
  clear Hh'.
  assert (∀ x, x ∈ ids → x ≠ c) as Hidsc.
  { intros x Hx ->. rewrite (Hidsfresh c Hx) in Hn. done. }
  assert (∀ x, x ∈ ids → ∃ m, h1 !! x = Some m ∧
            h' !! x = Some (with_parent (Some c) m)) as Hids1.
  { intros x Hx. destruct (Hids x Hx) as (m & Hm & Hm'). exists m.
    unfold g in Hm. rewrite lookup_insert_ne in Hm by (intros <-; by eapply Hidsc).
    split; [done|]. rewrite Hne by (by eapply Hidsc). done. }
  assert (∀ x, x ≠ c → x ∉ ids → h' !! x = h1 !! x) as Hrest1.
  { intros x Hxc Hx. rewrite Hne by done. rewrite Hrest by done.
    unfold g. by rewrite lookup_insert_ne. }
  exists h1, ids, lnew, out. split; [done|]. split; [done|]. split; [done|].
  split; [done|]. split; [done|]. split; [done|].
  split; [done|]. split; [done|].
  (* the new store is closed *)
  assert (∀ p, is_Some (h1 !! p) → is_Some (h' !! p)) as Hdom.
  { intros p Hp. destruct (decide (p = c)) as [->|Hpc]; [by rewrite Hc2|].
    destruct (decide (p ∈ ids)) as [Hin|Hnotin].
    - destruct (Hids1 p Hin) as (m & _ & ->). eauto.
    - by rewrite Hrest1. }
  intros x m p Hm Hp.
  destruct (decide (x = c)) as [->|Hxc].
  - rewrite Hc2 in Hm. injection Hm as <-. simpl in Hp.
    apply Hdom. destruct (Hclosed _ _ _ Hn Hp) as [mp Hmp]. eauto.
  - destruct (decide (x ∈ ids)) as [Hin|Hnotin].
    + destruct (Hids1 x Hin) as (m' & _ & Hm'). rewrite Hm' in Hm.
      injection Hm as <-. simpl in Hp. injection Hp as <-.
      by rewrite Hc2.
    + rewrite Hrest1 in Hm by done. apply Hdom. by eapply Hclosed1.
Qed.

(** ** The walk keeps its state *)

Lemma NoDup_insert_fresh (l1 l2 l3 lnew : list nat) c :
  NoDup (l1 ++ c :: l2 ++ l3) → NoDup lnew →
  (∀ x, x ∈ lnew → x ∉ l1 ++ c :: l2 ++ l3) →
  NoDup ((l1 ++ [c]) ++ l2 ++ lnew ++ l3).
Proof.
  intros Hold Hnew Hdisj.
  assert ((l1 ++ [c]) ++ l2 ++ lnew ++ l3 ≡ₚ lnew ++ (l1 ++ c :: l2 ++ l3)) as ->
    by solve_Permutation.
  apply NoDup_app. split; [done|]. split; [done|done].
Qed.

(** A failed visit leaves the walk where it was. *)
Lemma walk_state_frame P (h0 : heap) root (h h' : heap) log pending :
  walk_state P h0 root h log pending →
  (∀ x m, h !! x = Some m → h' !! x = Some m) →
  parents_closed h' →
  walk_state P h0 root h' log pending.
Proof.
  intros (_ & Hdom & Hl & Hnd & Hfin & Hold & Hfresh) Hframe Hclosed'.
  assert (∀ x, x ∈ log ++ pending → h' !! x = h !! x) as Hsame.
  { intros x Hx. destruct (preorder_of_listed _ _ _ _ Hl Hx) as [m Hm].
    by rewrite Hm, (Hframe _ _ Hm). }
  split; [done|]. split; [|split; [|split; [done|split; [|split]]]].
  - intros x Hx. destruct (Hdom x Hx) as [m Hm]. rewrite (Hframe _ _ Hm). eauto.
  - apply (preorder_of_transfer h h' _ _ Hl). intros x Hx.
    unfold same_children. by rewrite Hsame.
  - intros x Hx. rewrite Hsame; [by apply Hfin|]. apply elem_of_app. by left.
  - intros x Hx H0. rewrite Hsame; [by apply Hold|]. apply elem_of_app. by right.
  - intros x Hx H0. rewrite Hsame; [by apply Hfresh|]. apply elem_of_app. by right.
Qed.

(** A successful visit of the first pending node [c] moves [c] to the log and
    schedules the new nodes right after the subtree [c] already had. *)
Lemma walk_state_step P (h0 : heap) root (h h1 h' : heap) log c n sub lrest ids lnew out :
  (∀ p m, P m → P (with_parent p m)) →
  walk_state P h0 root h log ((c :: sub) ++ lrest) →
  h !! c = Some n →
  preorder_forest h (children n) sub →
  (∀ x m, h !! x = Some m → h1 !! x = Some m) →
  preorder_forest h1 ids lnew →
  NoDup lnew →
  (∀ x, x ∈ lnew → h !! x = None) →
  (∀ x, x ∈ lnew → ∃ m, h1 !! x = Some m ∧ P m) →
  h' !! c = Some (with_finished true
                    (with_children (children n ++ ids) (with_output out n))) →
  (∀ x, x ∈ ids → ∃ m, h1 !! x = Some m ∧ h' !! x = Some (with_parent (Some c) m)) →
  (∀ x, x ≠ c → x ∉ ids → h' !! x = h1 !! x) →
  parents_closed h' →
  walk_state P h0 root h' (log ++ [c]) (sub ++ lnew ++ lrest) ∧
  preorder_forest h' ids lnew ∧
  (∀ cs l, preorder_forest h cs l → c ∉ l → preorder_forest h' cs l).
Proof.
  intros HP (_ & Hdom & Hl & Hnd & Hfin & Hold & Hfresh)
         Hn Hsub Hframe Hforest Hndnew Hnewfresh HnewP Hc' Hids Hrest Hclosed'.
  simpl in Hl, Hnd.
  assert (∀ x, x ∈ ids → h !! x = None) as Hidsfresh.
  { intros x Hx. apply Hnewfresh. by eapply preorder_forest_roots. }
  assert (∀ x, is_Some (h !! x) → x ≠ c → h' !! x = h !! x) as Hothers.
  { intros x [m Hm] Hxc. rewrite Hrest; [by rewrite Hm, (Hframe _ _ Hm)|done|].
    intros Hx. rewrite (Hidsfresh x Hx) in Hm. done. }
  assert (∀ x, is_Some (h !! x) → x ≠ c → same_children h h' x) as Hsame.
  { intros x Hx Hxc. unfold same_children. by rewrite Hothers. }
  assert (∀ x, x ∈ lnew → x ≠ c) as Hnewc.
  { intros x Hx ->. rewrite (Hnewfresh c Hx) in Hn. done. }
  assert (preorder_forest h' ids lnew) as Hforest'.
  { apply (preorder_forest_transfer h1 h' _ _ Hforest). intros x Hx.
    unfold same_children. destruct (decide (x ∈ ids)) as [Hin|Hnotin].
    - destruct (Hids x Hin) as (m & -> & ->). done.
    - rewrite Hrest; [done|by apply Hnewc|done]. }
  assert (∀ cs l, preorder_forest h cs l → c ∉ l → preorder_forest h' cs l) as Hkeep.
  { intros cs l Hcs Hcl. by apply (graft_untouched_forest h h' c Hsame). }
  assert (∀ x, x ∈ log ++ c :: sub ++ lrest → is_Some (h !! x)) as Hlisted.
  { intros x Hx. by eapply preorder_of_listed. }
  assert (∀ x, x ∈ lnew → x ∉ log ++ c :: sub ++ lrest) as Hdisj.
  { intros x Hx Hin. destruct (Hlisted x Hin) as [m Hm].
    rewrite (Hnewfresh x Hx) in Hm. done. }
  assert (∀ x, x ∈ log → x ≠ c) as Hlogc.
  { intros x Hx ->. apply NoDup_app in Hnd as (_ & Hd & _).
    apply (Hd c Hx). by left. }
  assert (∀ x, x ∈ sub ++ lrest → x ≠ c) as Hpendc.
  { intros x Hx ->. apply NoDup_app in Hnd as (_ & _ & Hd).
    apply NoDup_cons in Hd as [Hd _]. done. }
  split; [|done].
  split; [done|]. split; [|split; [|split; [|split; [|split]]]].
  - intros x Hx. destruct (decide (x = c)) as [->|Hxc]; [rewrite Hc'; eauto|].
    rewrite Hothers; eauto.
  - replace ((log ++ [c]) ++ sub ++ lnew ++ lrest)
      with (log ++ c :: sub ++ lnew ++ lrest) by reassociate.
    eapply (graft_listing h h' c n _ ids sub lnew); eauto.
  - by apply NoDup_insert_fresh.
  - intros x [Hx| ->%list_elem_of_singleton]%elem_of_app.
    + rewrite Hothers; [by apply Hfin| |by apply Hlogc].
      apply Hlisted, elem_of_app. by left.
    + by rewrite Hc'.
  - intros x Hx H0.
    assert (x ∈ sub ++ lrest ∨ x ∈ lnew) as [Hin|Hin].
    { rewrite !elem_of_app in Hx. rewrite elem_of_app. tauto. }
    + rewrite Hothers.
      * apply Hold; [|done]. simpl. by right.
      * apply Hlisted. apply elem_of_app. right. by right.
      * by apply Hpendc.
    + destruct (Hdom x H0) as [m Hm]. rewrite (Hnewfresh x Hin) in Hm. done.
  - intros x Hx H0.
    assert (x ∈ sub ++ lrest ∨ x ∈ lnew) as [Hin|Hin].
    { rewrite !elem_of_app in Hx. rewrite elem_of_app. tauto. }
    + rewrite Hothers.
      * apply Hfresh; [|done]. simpl. by right.
      * apply Hlisted. apply elem_of_app. right. by right.
      * by apply Hpendc.
    + destruct (decide (x ∈ ids)) as [Hxi|Hxi].
      * destruct (Hids x Hxi) as (m & Hm & ->).
        destruct (HnewP x Hin) as (m' & Hm' & HPm). rewrite Hm in Hm'.
        injection Hm' as <-. eauto.
      * rewrite Hrest; [by apply HnewP|by apply Hnewc|done].
Qed.

Lemma iterate_invariant P (reg : registry) (h0 : heap) root :
  registry_well_behaved P reg →
  (∀ p m, P m → P (with_parent p m)) →
  ∀ fuel (h : heap) stack log pending,
    walk_state P h0 root h log pending →
    preorder_forest h (concat stack) pending →
    match iterate reg fuel h stack log with
    | Done h' log' => walk_state P h0 root h' log' []
    | Raised e c h' log' => ∃ pending', walk_state P h0 root h' log' (c :: pending')
    | OutOfFuel h' stack' log' =>
        ∃ pending', walk_state P h0 root h' log' pending' ∧
                    preorder_forest h' (concat stack') pending'
    end.
Proof.
  intros Hreg HP. induction fuel as [|fuel IH]; intros h stack log pending Hwalk Hpend.
  - destruct stack as [|frame stack]; simpl.
    + apply preorder_forest_nil_inv in Hpend as ->. done.
    + eauto.
  - destruct stack as [|[|c siblings] stack]; simpl.
    + apply preorder_forest_nil_inv in Hpend as ->. done.
    + by apply (IH h stack log pending).
    + simpl in Hpend.
      apply preorder_forest_cons_inv in Hpend as (lc & lrest & -> & Hc & Hrest).
      inversion Hc as [c' n sub Hn Hsub]; subst.
      destruct (do_my_work reg c h) as [h' [[]|e]] eqn:Hwork.
      * pose proof (do_my_work_step P reg c h n h' (Ok tt) Hreg
                      (proj1 Hwalk) Hn Hwork)
          as (h1 & ids & lnew & out & Hframe & Hforest & Hnd & Hfresh & HnewP &
              Hc' & Hids & Hothers & Hclosed').
        destruct (walk_state_step P h0 root h h1 h' log c n sub lrest ids lnew out)
          as (Hwalk' & Hforest' & Hkeep); try done.
        apply (IH h' _ _ (sub ++ lnew ++ lrest) Hwalk').
        simpl. unfold children_of. rewrite Hc'. simpl.
        destruct Hwalk as (_ & _ & _ & Hnodup & _).
        apply NoDup_app in Hnodup as (_ & _ & Hnodup). simpl in Hnodup.
        apply NoDup_cons in Hnodup as [Hcnot _]. rewrite elem_of_app in Hcnot.
        rewrite <- app_assoc. apply preorder_forest_app; [apply Hkeep; tauto|].
        apply preorder_forest_app; [done|apply Hkeep; tauto].
      * pose proof (do_my_work_step P reg c h n h' (Raise e) Hreg
                      (proj1 Hwalk) Hn Hwork) as (Hframe & Hclosed').
        exists (sub ++ lrest). by apply (walk_state_frame P h0 root h h').
Qed.

Lemma walk_state_initial P (h0 : heap) root l0 :
  parents_closed h0 → preorder_of h0 root l0 → NoDup l0 →
  walk_state P h0 root h0 [] l0 ∧ preorder_forest h0 (concat [[root]]) l0.
Proof.
  intros Hclosed Hl Hnd. split.
  - split; [done|]. split; [done|]. split; [done|]. split; [done|].
    split; [by intros x ?%elem_of_nil|]. split; [done|].
    intros x Hx H0. destruct (preorder_of_listed _ _ _ _ Hl Hx) as [m Hm].
    rewrite H0 in Hm. done.
  - simpl. rewrite <- (app_nil_r l0). constructor; [done|constructor].
Qed.

(** ** Computing listings *)

Lemma forest_list_sound (h : heap) (f : nat → option (list nat)) :
  (∀ c l, f c = Some l → preorder_of h c l) →
  ∀ cs l, forest_list f cs = Some l → preorder_forest h cs l.
Proof.
  intros Hf. induction cs as [|c cs IH]; intros l; simpl.
  - intros [= <-]. constructor.
  - destruct (f c) as [l1|] eqn:H1; [|done].
    destruct (forest_list f cs) as [l2|]; [|done].
    intros [= <-]. constructor; [by apply Hf|by apply IH].
Qed.

Lemma preorder_list_sound (h : heap) fuel :
  ∀ r l, preorder_list fuel h r = Some l → preorder_of h r l.
Proof.
  induction fuel as [|fuel IH]; intros r l; simpl; [done|].
  destruct (h !! r) as [n|] eqn:Hn; [|done].
  destruct (forest_list (preorder_list fuel h) (children n)) as [l0|] eqn:Hl0; [|done].
  intros [= <-]. apply (preorder_node h r n); [done|].
  by apply (forest_list_sound h (preorder_list fuel h)).
Qed.

(** ** The resolvers of the scenarios keep the contract *)

Lemma well_behaved_weaken (P Q : WorkNode → Prop) r :
  (∀ n, P n → Q n) → well_behaved P r → well_behaved Q r.
Proof.
  intros HPQ Hr args_ kwargs_ h h1 res Hclosed Hcall.
  destruct (Hr _ _ _ _ _ Hclosed Hcall) as (Hframe & Hclosed1 & Hres).
  split; [done|]. split; [done|]. destruct res as [[new_work out]|]; [|done].
  destruct Hres as (ids & lnew & ? & ? & ? & ? & HP & ?).
  exists ids, lnew. repeat (split; [done|]). split; [|done].
  intros x Hx. destruct (HP x Hx) as (n & ? & ?). eauto.
Qed.

Lemma registry_well_behaved_weaken (P Q : WorkNode → Prop) (reg : registry) :
  (∀ n, P n → Q n) → registry_well_behaved P reg → registry_well_behaved Q reg.
Proof. intros HPQ Hreg k r Hk. eapply well_behaved_weaken; eauto. Qed.

(** A resolver that makes no node and returns no node. *)
Lemma well_behaved_no_work P (f : raw_resolver) :
  (∀ args_ kwargs_ (h : heap),
     ∃ res, f args_ kwargs_ h = (h, res) ∧
            match res with
            | Ok v => (normalize v).1 = PList []
            | Raise _ => True
            end) →
  well_behaved P (decorated_function f).
Proof.
  intros Hf args_ kwargs_ h h1 res Hclosed. unfold decorated_function.
  destruct (Hf args_ kwargs_ h) as (res0 & Hcall & Hres0).
  destruct res0 as [v|e].
  - rewrite (bind_ok _ _ _ _ _ Hcall). intros [= <- <-].
    split; [done|]. split; [done|]. destruct (normalize v) as [new_work out].
    simpl in Hres0. subst new_work. exists [], [].
    split; [done|]. split; [constructor|]. split; [constructor|].
    repeat split; by intros x ?%elem_of_nil.
  - rewrite (bind_raise _ _ _ _ _ Hcall). by intros [= <- <-].
Qed.

(** A constructor call without keywords. *)
Lemma WorkNode_call_root k (h : heap) :
  parents_closed h →
  ∃ h', WorkNode_call k [] h = (h', Ok (fresh (dom h))) ∧
    h !! fresh (dom h) = None ∧
    h' !! fresh (dom h)
    = Some (mkWorkNode k (PTuple []) ∅ false PNone (default_name k) None []) ∧
    (∀ x m, h !! x = Some m → h' !! x = Some m) ∧
    parents_closed h'.
Proof.
  intros Hclosed.
  destruct (WorkNode_call_spec k [] None h Hclosed)
    as (h' & Hcall & Hfresh & Hself & _ & Hrest); [constructor|done|done|].
  exists h'. split; [done|]. split; [done|]. split; [done|].
  assert (∀ x m, h !! x = Some m → h' !! x = Some m) as Hframe.
  { intros x m Hm. rewrite Hrest; [done| |done]. intros ->. congruence. }
  split; [done|]. intros x m p Hm Hp.
  destruct (decide (x = fresh (dom h))) as [->|Hx].
  - rewrite Hself in Hm. injection Hm as <-. done.
  - rewrite Hrest in Hm by done. destruct (Hclosed _ _ _ Hm Hp) as [mp Hmp].
    rewrite (Hframe _ _ Hmp). eauto.
Qed.

Lemma preorder_of_leaf (h : heap) x n :
  h !! x = Some n → children n = [] → preorder_of h x [x].
Proof. intros Hn Hc. apply (preorder_node h x n); [done|]. rewrite Hc. constructor. Qed.

Lemma two_children_well_behaved : well_behaved as_constructed (decorated_function two_children).
Proof.
  intros args_ kwargs_ h h2 res Hclosed. unfold decorated_function, two_children.
  destruct (WorkNode_call_root roll_table h Hclosed)
    as (h1 & Hcall1 & Hfresh1 & Hself1 & Hframe1 & Hclosed1).
  destruct (WorkNode_call_root roll_table h1 Hclosed1)
    as (h2' & Hcall2 & Hfresh2 & Hself2 & Hframe2 & Hclosed2).
  set (a := fresh (dom h)) in *. set (b := fresh (dom h1)) in *. cbv beta.
  unfold bind, ret. rewrite Hcall1. cbv beta iota. rewrite Hcall2.
  intros [= <- <-].
  assert (a ≠ b) as Hab by (intros Heq; rewrite <- Heq in Hfresh2; congruence).
  assert (h !! b = None) as Hb.
  { destruct (h !! b) as [m|] eqn:Hm; [|done]. rewrite (Hframe1 _ _ Hm) in Hfresh2. done. }
  pose proof (Hframe2 _ _ Hself1) as Ha2.
  split; [eauto|]. split; [done|].
  exists [a; b], [a; b]. split; [done|]. split; [|split; [|split; [|split]]].
  - change [a; b] with ([a] ++ [b] ++ []) at 2.
    constructor; [by eapply preorder_of_leaf|].
    constructor; [by eapply preorder_of_leaf|constructor].
  - apply NoDup_cons. split; [by intros ?%list_elem_of_singleton|apply NoDup_singleton].
  - intros x [->|[->|?%elem_of_nil]%elem_of_cons]%elem_of_cons; done.
  - intros x [->|[->|?%elem_of_nil]%elem_of_cons]%elem_of_cons; [| |done];
      eexists; (split; [eassumption|done]).
  - intros x [->|[->|?%elem_of_nil]%elem_of_cons]%elem_of_cons; [| |done];
      eexists; (split; [eassumption|done]).
Qed.

Lemma child_and_value_well_behaved :
  well_behaved as_constructed (decorated_function child_and_value).
Proof.
  intros args_ kwargs_ h h2 res Hclosed. unfold decorated_function, child_and_value.
  destruct (WorkNode_call_root roll_table h Hclosed)
    as (h1 & Hcall1 & Hfresh1 & Hself1 & Hframe1 & Hclosed1).
  set (a := fresh (dom h)) in *. cbv beta.
  unfold bind, ret. rewrite Hcall1.
  intros [= <- <-].
  split; [eauto|]. split; [done|].
  exists [a], [a]. split; [done|]. split; [|split; [|split; [|split]]].
  - change [a] with ([a] ++ []) at 2.
    constructor; [by eapply preorder_of_leaf|constructor].
  - apply NoDup_singleton.
  - intros x ->%list_elem_of_singleton; done.
  - intros x ->%list_elem_of_singleton. eexists; (split; [eassumption|done]).
  - intros x ->%list_elem_of_singleton. eexists; (split; [eassumption|done]).
Qed.

Lemma scenario_registry_unfold :
  scenario_registry
  = <[parse_wide_table := decorated_function child_and_value]>
      (<[roll_stats := decorated_function silent_resolver]>
         (<[follow_link := decorated_function failing_resolver]>
            (<[roll_table := decorated_function leaf_resolver]>
               (<[parse_table := decorated_function two_children]> ∅)))).
Proof. reflexivity. Qed.

Lemma scenario_registry_well_behaved :
  registry_well_behaved as_constructed scenario_registry.
Proof.
  intros k r. rewrite scenario_registry_unfold.
  repeat (rewrite lookup_insert; case_decide; [intros [= <-]|]).
  - apply child_and_value_well_behaved.
  - apply well_behaved_no_work. intros. by eexists.
  - apply well_behaved_no_work. intros. by eexists.
  - apply well_behaved_no_work. intros. by eexists.
  - apply two_children_well_behaved.
  - by rewrite lookup_empty.
Qed.

(** ** The tree walk *)

(** C2 (as amended): when the walk is over, every node reachable from the
    root is finished. *)
Theorem do_all_work_finishes_all (reg : registry) (h0 : heap) root l0 fuel h log :
  registry_well_behaved (λ _, True) reg →
  parents_closed h0 →
  preorder_of h0 root l0 →
  NoDup l0 →
  do_all_work reg fuel root h0 = Done h log →
  ∀ x, reachable h root x → finished <$> h !! x = Some true.
Proof.
  intros Hreg Hclosed Hl0 Hnd Hrun x Hx.
  destruct (walk_state_initial (λ _, True) h0 root l0 Hclosed Hl0 Hnd) as [Hwalk Hpend].
  pose proof (iterate_invariant (λ _, True) reg h0 root Hreg (λ _ _ _, I)
                fuel h0 [[root]] [] l0 Hwalk Hpend) as Hinv.
  unfold do_all_work in Hrun. rewrite Hrun in Hinv.
  destruct Hinv as (_ & _ & Hl & _ & Hfin & _). rewrite app_nil_r in Hl.
  apply Hfin. by apply (preorder_of_reachable h root log x Hl).
Qed.

Lemma do_all_work_finishes_all_witness :
  ∃ h, do_all_work scenario_registry 10 0 (single_root parse_table) = Done h [0; 1; 2] ∧
       ∀ x, reachable h 0 x → finished <$> h !! x = Some true.
Proof.
  assert (∃ h, do_all_work scenario_registry 10 0 (single_root parse_table)
               = Done h [0; 1; 2]) as [h Hrun].
  { eexists. vm_compute. reflexivity. }
  exists h. split; [exact Hrun|].
  apply (do_all_work_finishes_all scenario_registry (single_root parse_table) 0 [0] 10 h
           [0; 1; 2]).
  - apply (registry_well_behaved_weaken as_constructed); [done|].
    apply scenario_registry_well_behaved.
  - apply parents_closedb_sound. vm_compute. reflexivity.
  - apply (preorder_list_sound _ 2). vm_compute. reflexivity.
  - apply NoDup_singleton.
  - exact Hrun.
Defined.

(** C2, the counterexample: after a walk in which every resolver succeeds, a
    node whose resolver returned nothing is finished with no output and no
    children, and a node whose resolver returned a list with a child task and
    a value has both children and an output. *)
Lemma finished_with_neither_or_both :
  do_all_work scenario_registry 10 0 (single_root roll_stats)
  = Done {[ 0 := mkWorkNode roll_stats (PTuple []) ∅ true PNone
                   (PStr "'roll_stats'") None [] ]} [0] ∧
  ∃ h, do_all_work scenario_registry 10 0 (single_root parse_wide_table) = Done h [0; 1] ∧
       h !! 0 = Some (mkWorkNode parse_wide_table (PTuple []) ∅ true (PList [PInt 7])
                        (PStr "'parse_wide_table'") None [1]).
Proof.
  split; [vm_compute; reflexivity|].
  eexists. split; vm_compute; reflexivity.
Qed.

(** C7: when the walk reaches a node whose kind has no resolver in the
    registry, the lookup [work_resolution[work_type]] fails and the call
    ends with that error; the store, and with it the node, is left as it
    was.  In particular this is so when the node is the root. *)
Theorem unregistered_kind_aborts (reg : registry) fuel (h : heap) c n siblings stack log :
  h !! c = Some n →
  reg !! work_type n = None →
  iterate reg (S fuel) h ((c :: siblings) :: stack) log
  = Raised (KeyError (work_type n)) c h log ∧
  do_all_work reg (S fuel) c h = Raised (KeyError (work_type n)) c h [].
Proof.
  intros Hn Hreg.
  assert (do_my_work reg c h = (h, Raise (KeyError (work_type n)))) as Hwork.
  { unfold do_my_work. rewrite (bind_ok _ _ _ _ _ (deref_ok _ _ _ Hn)).
    unfold lookup_resolver. by rewrite Hreg. }
  unfold do_all_work. simpl. by rewrite Hwork.
Qed.

Lemma unregistered_kind_aborts_witness :
  do_all_work module_registry 1 0 (single_root parse_arbitrary_text_for_table)
  = Raised (KeyError parse_arbitrary_text_for_table) 0
           (single_root parse_arbitrary_text_for_table) [] ∧
  finished <$> single_root parse_arbitrary_text_for_table !! 0 = Some false.
Proof.
  split; [|vm_compute; reflexivity].
  apply (unregistered_kind_aborts module_registry 0
           (single_root parse_arbitrary_text_for_table) 0
           (mkWorkNode parse_arbitrary_text_for_table (PTuple []) ∅ false PNone
              (PStr "'parse_arbitrary_text_for_table'") None []) [] [] []).
  - vm_compute. reflexivity.
  - vm_compute. reflexivity.
Defined.


(** ** The output of a node after its work *)

Lemma linkage_only_ret {A} (a : A) : linkage_only (ret a).
Proof. by intros g g' r [= <- <-]. Qed.

Lemma linkage_only_raise {A} e : linkage_only (@raise A e).
Proof. by intros g g' r [= <- <-]. Qed.

Lemma linkage_only_bind {A B} (m : M A) (k : A → M B) :
  linkage_only m → (∀ a, linkage_only (k a)) → linkage_only (bind m k).
Proof.
  intros Hm Hk g g' r [(g1 & a & H1 & H2)|(e & H1 & _)]%bind_inv y.
  - rewrite (Hk a g1 g' r H2 y). by apply (Hm g g1 (Ok a)).
  - by apply (Hm g g' (Raise e)).
Qed.

Lemma linkage_only_deref id : linkage_only (deref id).
Proof. intros g g' r. unfold deref. by destruct (g !! id); intros [= <- <-]. Qed.

Lemma linkage_only_update id f :
  (∀ n, unlinked (f n) = unlinked n) → linkage_only (update_node id f).
Proof.
  intros Hf g g' r. unfold update_node. destruct (g !! id) as [n|] eqn:Hn.
  - intros [= <- <-] y. destruct (decide (y = id)) as [->|Hy].
    + rewrite lookup_insert_eq, Hn. simpl. by rewrite Hf.
    + by rewrite lookup_insert_ne.
  - by intros [= <- <-].
Qed.

Lemma linkage_only_check_loop self v : linkage_only (check_loop self v).
Proof.
  intros g g' r. unfold check_loop. destruct v as [p|]; [|by intros [= <- <-]].
  destruct (decide (p = self)); [by intros [= <- <-]|].
  by destruct (decide (self ∈ iter_path_reverse (S (size g)) g p)); intros [= <- <-].
Qed.

Lemma linkage_only_set_parent self v : linkage_only (set_parent self v).
Proof.
  unfold set_parent. apply linkage_only_bind; [apply linkage_only_deref|].
  intros n. destruct (decide (parent n = v)); [apply linkage_only_ret|].
  apply linkage_only_bind; [apply linkage_only_check_loop|]. intros _.
  apply linkage_only_bind.
  - unfold detach. destruct (parent n); [|apply linkage_only_ret].
    apply linkage_only_bind; [|intros _]; by apply linkage_only_update.
  - intros _. unfold attach. destruct v; [|apply linkage_only_ret].
    apply linkage_only_bind; [|intros _]; by apply linkage_only_update.
Qed.

Lemma linkage_only_for_each {A} (body : A → M unit) l :
  (∀ x, linkage_only (body x)) → linkage_only (for_each body l).
Proof.
  intros Hbody. induction l as [|x l IH]; simpl; [apply linkage_only_ret|].
  apply linkage_only_bind; [apply Hbody|done].
Qed.

Lemma linkage_only_attach_child self child : linkage_only (attach_child self child).
Proof.
  destruct child; simpl; try apply linkage_only_raise. apply linkage_only_set_parent.
Qed.

(** C10: when the raw resolver returns an iterable, the output the adapter
    hands over is a list, the list of the items that are not nodes: the empty
    list when every item is a node, a list of one element when a single item
    is not a node.  [do_my_work] stores that list as the output of the node,
    so that a node whose resolver returned child tasks only ends with the
    empty list as output, not with [None]. *)
Theorem iterable_return_gives_list_output (reg : registry) (f : raw_resolver)
    self (h h1 h2 : heap) n args_ v items :
  h !! self = Some n →
  reg !! work_type n = Some (decorated_function f) →
  py_iter (args n) = Some args_ →
  f args_ (kwargs n) h = (h1, Ok v) →
  py_iter v = Some items →
  do_my_work reg self h = (h2, Ok tt) →
  decorated_function f args_ (kwargs n) h
  = (h1, Ok (PList (filter (λ x, is_WorkNode x) items),
             PList (filter (λ x, ¬ is_WorkNode x) items))) ∧
  (Forall (λ x, is_WorkNode x) items → filter (λ x, ¬ is_WorkNode x) items = []) ∧
  (∀ nodes1 x nodes2,
     items = nodes1 ++ x :: nodes2 →
     Forall (λ y, is_WorkNode y) (nodes1 ++ nodes2) → ¬ is_WorkNode x →
     filter (λ y, ¬ is_WorkNode y) items = [x]) ∧
  output <$> h2 !! self = Some (PList (filter (λ x, ¬ is_WorkNode x) items)).
Proof.
  intros Hn Hreg Hargs Hf Hitems Hwork.
  assert (∀ l : list pyval, Forall (λ x, is_WorkNode x) l →
            filter (λ x, ¬ is_WorkNode x) l = []) as Hnone.
  { induction 1 as [|y l Hy _ IH]; [done|]. rewrite filter_cons_False; [done|tauto]. }
  assert (decorated_function f args_ (kwargs n) h
          = (h1, Ok (PList (filter (λ x, is_WorkNode x) items),
                     PList (filter (λ x, ¬ is_WorkNode x) items)))) as Hdec.
  { unfold decorated_function. rewrite (bind_ok _ _ _ _ _ Hf). unfold ret.
    by rewrite (normalize_iterable v items Hitems). }
  split; [exact Hdec|]. split; [apply Hnone|]. split.
  { intros nodes1 x nodes2 -> [H1 H2]%Forall_app Hx.
    rewrite filter_app, filter_cons_True by done.
    by rewrite (Hnone _ H1), (Hnone _ H2). }
  unfold do_my_work in Hwork.
  rewrite (bind_ok _ _ _ _ _ (deref_ok _ _ _ Hn)) in Hwork.
  unfold lookup_resolver in Hwork. rewrite Hreg, Hargs in Hwork.
  rewrite (bind_ok _ _ _ _ _ Hdec) in Hwork.
  apply bind_inv in Hwork as [(g & [] & Hout & Hwork)|(e & _ & [=])].
  apply bind_inv in Hwork as [(g' & [] & Hattach & Hfin)|(e & _ & [=])].
  unfold update_node in Hout, Hfin.
  destruct (h1 !! self) as [n1|] eqn:Hn1; [|done]. injection Hout as <-.
  destruct (g' !! self) as [n'|] eqn:Hn'; [|done]. injection Hfin as <-.
  rewrite lookup_insert_eq. simpl. f_equal.
  assert (linkage_only
            (if truthy (PList (filter (λ x, is_WorkNode x) items))
             then match py_iter (PList (filter (λ x, is_WorkNode x) items)) with
                  | Some items0 => for_each (attach_child self) items0
                  | None => raise (TypeError "object is not iterable")
                  end
             else ret tt)) as Hlink.
  { destruct (truthy _); [|apply linkage_only_ret]. simpl.
    apply linkage_only_for_each, linkage_only_attach_child. }
  pose proof (Hlink _ _ _ Hattach self) as Hself.
  rewrite Hn', lookup_insert_eq in Hself. simpl in Hself.
  injection Hself as _ _ _ _ Hself _. done.
Qed.

Lemma iterable_return_gives_list_output_witness :
  let h2 := (do_my_work scenario_registry 0 (single_root parse_table)).1 in
  do_my_work scenario_registry 0 (single_root parse_table) = (h2, Ok tt) ∧
  output <$> h2 !! 0 = Some (PList []) ∧
  children <$> h2 !! 0 = Some [1; 2].
Proof.
  intros h2.
  assert (do_my_work scenario_registry 0 (single_root parse_table) = (h2, Ok tt)) as Hwork.
  { vm_compute. reflexivity. }
  split; [exact Hwork|].
  destruct (iterable_return_gives_list_output scenario_registry two_children 0
              (single_root parse_table) (two_children [] ∅ (single_root parse_table)).1
              h2
              (mkWorkNode parse_table (PTuple []) ∅ false PNone (PStr "'parse_table'") None [])
              [] (PList [PNode 1; PNode 2]) [PNode 1; PNode 2])
    as (_ & _ & _ & Hout).
  - vm_compute. reflexivity.
  - reflexivity.
  - reflexivity.
  - vm_compute. reflexivity.
  - reflexivity.
  - exact Hwork.
  - split; [exact Hout|]. vm_compute. reflexivity.
Defined.

(** ** Fuel *)

(** The outcome of a walk that has ended does not depend on the fuel left. *)
Lemma iterate_more_fuel (reg : registry) fuel extra :
  ∀ (h : heap) stack log,
    match iterate reg fuel h stack log with
    | OutOfFuel _ _ _ => True
    | o => iterate reg (fuel + extra) h stack log = o
    end.
Proof.
  induction fuel as [|fuel IH]; intros h stack log.
  - destruct stack; simpl; [|done]. by destruct extra.
  - destruct stack as [|[|c siblings] stack]; simpl; [done|apply IH|].
    destruct (do_my_work reg c h) as [h' [[]|e]]; [apply IH|done].
Qed.

(** ** Termination *)

Lemma unlinked_kind (a b : option WorkNode) :
  unlinked <$> a = unlinked <$> b → work_type <$> a = work_type <$> b.
Proof.
  destruct a as [[]|], b as [[]|]; simpl; try done. by intros [= -> _ _ _ _ _].
Qed.

(** A successful [do_my_work] has called the resolver of the kind of the
    node, and no node has changed kind since the resolver returned. *)
Lemma do_my_work_kinds (reg : registry) c (h h' : heap) n :
  h !! c = Some n →
  do_my_work reg c h = (h', Ok tt) →
  ∃ r args_ (h1 : heap) res,
    reg !! work_type n = Some r ∧
    r args_ (kwargs n) h = (h1, Ok res) ∧
    ∀ y, work_type <$> h' !! y = work_type <$> h1 !! y.
Proof.
  intros Hn. unfold do_my_work.
  rewrite (bind_ok _ _ _ _ _ (deref_ok _ _ _ Hn)). unfold lookup_resolver.
  destruct (reg !! work_type n) as [r|] eqn:Hr; [|by intros [=]].
  destruct (py_iter (args n)) as [args_|]; [|by intros [=]].
  intros [(h1 & [new_work out] & Hcall & Hrun)|(e & _ & [=])]%bind_inv.
  exists r, args_, h1, (new_work, out). split; [done|]. split; [done|].
  apply bind_inv in Hrun as [(g & [] & Hout & Hrun)|(e & _ & [=])].
  apply bind_inv in Hrun as [(g' & [] & Hattach & Hfin)|(e & _ & [=])].
  unfold update_node in Hout, Hfin.
  destruct (h1 !! c) as [n1|] eqn:Hn1; [|done]. injection Hout as <-.
  destruct (g' !! c) as [n'|] eqn:Hn'; [|done]. injection Hfin as <-.
  assert (linkage_only
            (if truthy new_work
             then match py_iter new_work with
                  | Some items => for_each (attach_child c) items
                  | None => raise (TypeError "object is not iterable")
                  end
             else ret tt)) as Hlink.
  { destruct (truthy new_work); [|apply linkage_only_ret].
    destruct (py_iter new_work); [|apply linkage_only_raise].
    apply linkage_only_for_each, linkage_only_attach_child. }
  intros y. pose proof (unlinked_kind _ _ (Hlink _ _ _ Hattach y)) as Hy.
  destruct (decide (y = c)) as [->|Hyc].
  - rewrite lookup_insert_eq, Hn1. rewrite Hn', lookup_insert_eq in Hy. done.
  - rewrite lookup_insert_ne by done. rewrite lookup_insert_ne in Hy by done. done.
Qed.

(** A successful visit, seen from the walk. *)
Lemma visit_step P (reg : registry) (h0 : heap) root (h h' : heap) c siblings stack
    log pending :
  registry_well_behaved P reg →
  (∀ p m, P m → P (with_parent p m)) →
  walk_state P h0 root h log pending →
  preorder_forest h (concat ((c :: siblings) :: stack)) pending →
  do_my_work reg c h = (h', Ok tt) →
  ∃ sub lnew lrest,
    pending = c :: sub ++ lrest ∧
    walk_state P h0 root h' (log ++ [c]) (sub ++ lnew ++ lrest) ∧
    preorder_forest h' (concat (children_of h' c :: siblings :: stack))
                    (sub ++ lnew ++ lrest) ∧
    is_Some (h !! c) ∧
    NoDup lnew ∧
    (∀ x, x ∈ lnew → h !! x = None ∧ is_Some (h' !! x)) ∧
    (∀ x, x ∈ sub ++ lrest → h' !! x = h !! x).
Proof.
  intros Hreg HP Hwalk Hpend Hwork. simpl in Hpend.
  apply preorder_forest_cons_inv in Hpend as (lc & lrest & -> & Hc & Hrest).
  inversion Hc as [c' n sub Hn Hsub]; subst.
  pose proof (do_my_work_step P reg c h n h' (Ok tt) Hreg (proj1 Hwalk) Hn Hwork)
    as (h1 & ids & lnew & out & Hframe & Hforest & Hnd & Hfresh & HnewP &
        Hc' & Hids & Hothers & Hclosed').
  destruct (walk_state_step P h0 root h h1 h' log c n sub lrest ids lnew out)
    as (Hwalk' & Hforest' & Hkeep); try done.
  exists sub, lnew, lrest. split; [done|]. split; [done|].
  destruct Hwalk as (_ & _ & Hl & Hnodup & _).
  pose proof Hnodup as (_ & _ & Hnodup')%NoDup_app. simpl in Hnodup'.
  apply NoDup_cons in Hnodup' as [Hcnot _]. rewrite elem_of_app in Hcnot.
  assert (∀ x, x ∈ ids → h !! x = None) as Hidsfresh.
  { intros x Hx. apply Hfresh. by eapply preorder_forest_roots. }
  split; [|split; [eauto|split; [done|split]]].
  - simpl. unfold children_of. rewrite Hc'. simpl.
    rewrite <- app_assoc. apply preorder_forest_app; [apply Hkeep; tauto|].
    apply preorder_forest_app; [done|apply Hkeep; tauto].
  - intros x Hx. split; [by apply Hfresh|].
    by apply (preorder_forest_listed h' ids lnew).
  - intros x Hx.
    destruct (preorder_of_listed _ _ _ x Hl) as [m Hm].
    { apply elem_of_app. right. simpl. right. done. }
    rewrite Hothers.
    + by rewrite Hm, (Hframe _ _ Hm).
    + intros ->. rewrite elem_of_app in Hx. tauto.
    + intros Hxi. rewrite (Hidsfresh x Hxi) in Hm. done.
Qed.

Lemma cost_mono B r1 r2 : r1 ≤ r2 → cost B r1 ≤ cost B r2.
Proof.
  induction 1 as [|r2 _ IH]; [done|]. simpl.
  assert (cost B r2 ≤ 2 + B * cost B r2); [|lia].
  clear. induction r2 as [|r IH]; simpl; [lia|].
  destruct B; simpl; [lia|]. nia.
Qed.

Lemma sum_list_with_bound {A} (f : A → nat) (l : list A) b :
  (∀ x, x ∈ l → f x ≤ b) → sum_list_with f l ≤ length l * b.
Proof.
  induction l as [|x l IH]; intros Hb; simpl; [lia|].
  pose proof (Hb x ltac:(by left)).
  assert (sum_list_with f l ≤ length l * b); [|lia].
  apply IH. intros y Hy. apply Hb. by right.
Qed.

Lemma sum_list_with_ext_in {A} (f g : A → nat) (l : list A) :
  (∀ x, x ∈ l → f x = g x) → sum_list_with f l = sum_list_with g l.
Proof.
  induction l as [|x l IH]; intros Hfg; simpl; [done|].
  rewrite (Hfg x ltac:(by left)), IH; [done|]. intros y Hy. apply Hfg. by right.
Qed.

Lemma iterate_terminates P (reg : registry) rank B (h0 : heap) root :
  registry_well_behaved P reg →
  (∀ p m, P m → P (with_parent p m)) →
  registry_ranked rank B reg →
  ∀ fuel (h : heap) stack log pending,
    walk_state P h0 root h log pending →
    preorder_forest h (concat stack) pending →
    sum_list_with (node_cost rank B h) pending + length stack ≤ fuel →
    ended (iterate reg fuel h stack log).
Proof.
  intros Hreg HP Hrank.
  induction fuel as [|fuel IH]; intros h stack log pending Hwalk Hpend Hfuel.
  - destruct stack; simpl in *; [done|lia].
  - destruct stack as [|[|c siblings] stack]; simpl; [done| |].
    + apply (IH h stack log pending Hwalk Hpend). simpl in Hfuel. lia.
    + destruct (do_my_work reg c h) as [h' [[]|e]] eqn:Hwork; [|done].
      destruct (visit_step P reg h0 root h h' c siblings stack log pending
                  Hreg HP Hwalk Hpend Hwork)
        as (sub & lnew & lrest & -> & Hwalk' & Hpend' & [n Hn] & Hnd & Hnew & Hsame).
      apply (IH h' _ _ _ Hwalk' Hpend').
      destruct (do_my_work_kinds reg c h h' n Hn Hwork)
        as (r & args_ & h1 & res & Hr & Hcall & Hkinds).
      destruct (Hrank _ _ _ _ _ _ _ Hr (proj1 Hwalk) Hcall) as [Hlower Hcount].
      assert (∀ x, x ∈ lnew → h !! x = None ∧ is_Some (h1 !! x)) as Hnew1.
      { intros x Hx. destruct (Hnew x Hx) as [Hx0 [m Hm]]. split; [done|].
        pose proof (Hkinds x) as Hk. rewrite Hm in Hk.
        destruct (h1 !! x); [eauto|done]. }
      pose proof (Hcount lnew Hnd Hnew1) as Hlen.
      assert (sum_list_with (node_cost rank B h') lnew + 2
              ≤ cost B (rank (work_type n))) as Hnewcost.
      { destruct (rank (work_type n)) as [|k] eqn:Hk.
        - destruct lnew as [|x lnew']; [simpl; lia|].
          destruct (Hnew1 x ltac:(by left)) as [Hx0 [m Hm]].
          pose proof (Hlower x m Hx0 Hm). lia.
        - simpl.
          assert (sum_list_with (node_cost rank B h') lnew ≤ length lnew * cost B k);
            [|nia].
          apply sum_list_with_bound. intros x Hx.
          destruct (Hnew1 x Hx) as [Hx0 [m Hm]].
          pose proof (Hlower x m Hx0 Hm) as Hlt.
          unfold node_cost. pose proof (Hkinds x) as Hkx. rewrite Hm in Hkx.
          destruct (h' !! x) as [m'|]; [|lia]. injection Hkx as ->.
          apply cost_mono. lia. }
      assert (sum_list_with (node_cost rank B h') (sub ++ lrest)
              = sum_list_with (node_cost rank B h) (sub ++ lrest)) as Hold.
      { apply sum_list_with_ext_in. intros x Hx. unfold node_cost.
        by rewrite (Hsame x Hx). }
      simpl in Hfuel. unfold node_cost at 1 in Hfuel. rewrite Hn in Hfuel.
      rewrite !sum_list_with_app in *. simpl. lia.
Qed.

(** Under the resolver contract and a ranking of the kinds, the walk ends:
    [do_all_work] returns or raises within the number of steps the ranking
    allows for the nodes of the tree. *)
Theorem do_all_work_terminates (reg : registry) rank B (h0 : heap) root l0 :
  registry_well_behaved (λ _, True) reg →
  registry_ranked rank B reg →
  parents_closed h0 →
  preorder_of h0 root l0 →
  NoDup l0 →
  ∀ fuel, sum_list_with (node_cost rank B h0) l0 + 1 ≤ fuel →
          ended (do_all_work reg fuel root h0).
Proof.
  intros Hreg Hrank Hclosed Hl0 Hnd fuel Hfuel.
  destruct (walk_state_initial (λ _, True) h0 root l0 Hclosed Hl0 Hnd) as [Hwalk Hpend].
  by apply (iterate_terminates (λ _, True) reg rank B h0 root Hreg (λ _ _ _, I) Hrank
              fuel h0 [[root]] [] l0).
Qed.

Lemma ranked_no_allocation (f : raw_resolver) args_ kwargs_ (h h1 : heap) res :
  (∀ a k (g : heap), (f a k g).1 = g) →
  decorated_function f args_ kwargs_ h = (h1, Ok res) →
  (∀ x (m : WorkNode), h !! x = None → h1 !! x = Some m → False) ∧
  (∀ l : list nat, NoDup l → (∀ x, x ∈ l → h !! x = None ∧ is_Some (h1 !! x)) →
                   length l ≤ 0).
Proof.
  intros Hf Hcall.
  assert (h1 = h) as ->.
  { unfold decorated_function in Hcall.
    apply bind_inv in Hcall as [(g & v & Hv & [= <- _])|(e & _ & [=])].
    rewrite <- (Hf args_ kwargs_ h). by rewrite Hv. }
  split; [intros x m H1 H2; congruence|].
  intros [|x l] _ Hl; [done|]. destruct (Hl x ltac:(by left)) as [H1 [m H2]]. congruence.
Qed.

Lemma scenario_registry_ranked : registry_ranked scenario_rank 2 scenario_registry.
Proof.
  intros k r args_ kwargs_ h h2 res. rewrite scenario_registry_unfold.
  repeat (rewrite lookup_insert; case_decide; [subst k; intros [= <-] Hclosed Hcall|]).
  - unfold decorated_function, child_and_value in Hcall.
    destruct (WorkNode_call_spec roll_table [] None h Hclosed)
      as (h1 & Hcall1 & Hfresh1 & Hself1 & _ & Hrest1); [constructor|done|done|].
    unfold bind, ret in Hcall. rewrite Hcall1 in Hcall. injection Hcall as <- _.
    assert (∀ x, h !! x = None → is_Some (h1 !! x) → x = fresh (dom h)) as Honly.
    { intros x Hx0 [m Hm]. destruct (decide (x = fresh (dom h))); [done|].
      rewrite Hrest1 in Hm by done. congruence. }
    split.
    + intros x m Hx0 Hm. rewrite (Honly x Hx0 ltac:(eauto)) in Hm.
      rewrite Hself1 in Hm. injection Hm as <-. simpl. lia.
    + intros l Hnd Hl.
      assert (l ⊆+ [fresh (dom h)]) as Hsub.
      { apply NoDup_submseteq; [done|]. intros x Hx.
        destruct (Hl x Hx) as [Hx0 Hx1]. rewrite (Honly x Hx0 Hx1). by left. }
      apply submseteq_length in Hsub. simpl in Hsub. lia.
  - destruct (ranked_no_allocation silent_resolver _ _ _ _ _ (λ _ _ _, eq_refl) Hcall)
      as [Hno Hcnt].
    split; [intros x m Hx Hm; destruct (Hno x m Hx Hm)|].
    intros l Hnd Hl. pose proof (Hcnt l Hnd Hl). lia.
  - destruct (ranked_no_allocation failing_resolver _ _ _ _ _ (λ _ _ _, eq_refl) Hcall)
      as [Hno Hcnt].
    split; [intros x m Hx Hm; destruct (Hno x m Hx Hm)|].
    intros l Hnd Hl. pose proof (Hcnt l Hnd Hl). lia.
  - destruct (ranked_no_allocation leaf_resolver _ _ _ _ _ (λ _ _ _, eq_refl) Hcall)
      as [Hno Hcnt].
    split; [intros x m Hx Hm; destruct (Hno x m Hx Hm)|].
    intros l Hnd Hl. pose proof (Hcnt l Hnd Hl). lia.
  - unfold decorated_function, two_children in Hcall.
    destruct (WorkNode_call_spec roll_table [] None h Hclosed)
      as (h1 & Hcall1 & Hfresh1 & Hself1 & _ & Hrest1); [constructor|done|done|].
    destruct (WorkNode_call_root roll_table h Hclosed)
      as (h1' & Hcall1' & _ & _ & _ & Hclosed1).
    rewrite Hcall1 in Hcall1'. injection Hcall1' as <-.
    destruct (WorkNode_call_spec roll_table [] None h1 Hclosed1)
      as (h2' & Hcall2 & Hfresh2 & Hself2 & _ & Hrest2); [constructor|done|done|].
    unfold bind, ret in Hcall. rewrite Hcall1 in Hcall. cbv beta iota in Hcall.
    rewrite Hcall2 in Hcall. injection Hcall as <- _.
    set (a := fresh (dom h)) in *. set (b := fresh (dom h1)) in *.
    assert (∀ x, h !! x = None → is_Some (h2' !! x) → x = a ∨ x = b) as Honly.
    { intros x Hx0 [m Hm]. destruct (decide (x = b)); [by right|]. left.
      rewrite Hrest2 in Hm by done. destruct (decide (x = a)); [done|].
      rewrite Hrest1 in Hm by done. congruence. }
    split.
    + intros x m Hx0 Hm. destruct (Honly x Hx0 ltac:(eauto)) as [->| ->].
      * rewrite Hrest2 in Hm; [|intros Hab; rewrite Hab in Hself1; congruence|done].
        rewrite Hself1 in Hm. injection Hm as <-. simpl. lia.
      * rewrite Hself2 in Hm. injection Hm as <-. simpl. lia.
    + intros l Hnd Hl.
      assert (l ⊆+ [a; b]) as Hsub.
      { apply NoDup_submseteq; [done|]. intros x Hx.
        destruct (Hl x Hx) as [Hx0 Hx1]. destruct (Honly x Hx0 Hx1) as [->| ->]; [by left|right; by left]. }
      apply submseteq_length in Hsub. simpl in Hsub. lia.
  - by rewrite lookup_empty.
Qed.

Lemma do_all_work_terminates_witness :
  ended (do_all_work scenario_registry 7 0 (single_root parse_table)).
Proof.
  apply (do_all_work_terminates scenario_registry scenario_rank 2
           (single_root parse_table) 0 [0]).
  - apply (registry_well_behaved_weaken as_constructed); [done|].
    apply scenario_registry_well_behaved.
  - apply scenario_registry_ranked.
  - apply parents_closedb_sound. vm_compute. reflexivity.
  - apply (preorder_list_sound _ 2). vm_compute. reflexivity.
  - apply NoDup_singleton.
  - assert (sum_list_with (node_cost scenario_rank 2 (single_root parse_table)) [0] = 6)
      as -> by (vm_compute; reflexivity).
    lia.
Defined.

(** * Further properties of the code *)

(** ** [split_iterable] *)

(** [split_iterable] loses and invents nothing: the first list holds the
    items that satisfy the condition, the second the others, each in the
    order of the iterable, and together they are a rearrangement of it. *)
Theorem split_iterable_partitions {A} (l : list A) (p : A → bool) :
  (split_iterable l p).1 = filter (λ x, p x) l ∧
  (split_iterable l p).2 = filter (λ x, ¬ p x) l ∧
  (split_iterable l p).1 ++ (split_iterable l p).2 ≡ₚ l ∧
  Forall (λ x, p x = true) (split_iterable l p).1 ∧
  Forall (λ x, p x = false) (split_iterable l p).2.
Proof.
  rewrite split_iterable_filter. simpl.
  split; [done|]. split; [done|]. split; [apply filter_app_complement|].
  split; apply Forall_forall; intros x [Hx _]%list_elem_of_filter.
  - by apply Is_true_eq_true.
  - by destruct (p x).
Qed.

(** ** Registration *)

(** Registering a kind that is not bound succeeds, with or without
    [override]; the kind then resolves to the resolver, and every other
    kind resolves as before. *)
Theorem register_then_lookup k (r : resolver) override (reg : registry) :
  reg !! k = None →
  ∃ reg' : registry,
    _register_resolver k r override reg = (reg', Ok tt) ∧
    lookup_resolver reg' k = Ok r ∧
    ∀ k', k' ≠ k → lookup_resolver reg' k' = lookup_resolver reg k'.
Proof.
  intros Hk. unfold _register_resolver, lookup_resolver.
  rewrite bool_decide_eq_true_2 by done. rewrite orb_true_r.
  eexists. split; [reflexivity|]. rewrite lookup_insert_eq. split; [done|].
  intros k' Hk'. by rewrite lookup_insert_ne.
Qed.

Lemma register_then_lookup_witness :
  ∃ reg' : gmap WorkloadType resolver,
    _register_resolver roll_table (decorated_function leaf_resolver) false ∅ = (reg', Ok tt) ∧
    lookup_resolver reg' roll_table = Ok (decorated_function leaf_resolver) ∧
    ∀ k', k' ≠ roll_table → lookup_resolver reg' k' = lookup_resolver ∅ k'.
Proof.
  apply (register_then_lookup roll_table (decorated_function leaf_resolver) false ∅).
  reflexivity.
Defined.

Lemma register_each_app (a b : list WorkloadType) (r : resolver) override (reg : registry) :
  register_each (a ++ b) r override reg
  = match register_each a r override reg with
    | (reg1, Ok _) => register_each b r override reg1
    | (reg1, Raise e) => (reg1, Raise e)
    end.
Proof.
  revert reg. induction a as [|k a IH]; intros reg; simpl; [done|].
  destruct (_register_resolver k r override reg) as [reg1 [[]|e]]; [apply IH|done].
Qed.

Lemma register_each_unbound (kinds : list WorkloadType) (r : resolver) :
  ∀ reg : registry,
    NoDup kinds → (∀ k, k ∈ kinds → reg !! k = None) →
    ∃ reg' : registry,
      register_each kinds r false reg = (reg', Ok tt) ∧
      (∀ k, k ∈ kinds → reg' !! k = Some r) ∧
      (∀ k, k ∉ kinds → reg' !! k = reg !! k).
Proof.
  induction kinds as [|k kinds IH]; intros reg Hnd Hfree.
  - exists reg. split; [done|]. split; [by intros k ?%elem_of_nil|done].
  - apply NoDup_cons in Hnd as [Hk Hnd]. simpl.
    unfold _register_resolver at 1.
    rewrite bool_decide_eq_true_2 by (apply Hfree; by left). simpl.
    destruct (IH (<[k := r]> reg) Hnd) as (reg' & Hrun & Hin & Hout).
    { intros x Hx. rewrite lookup_insert_ne; [apply Hfree; by right|].
      by intros ->. }
    exists reg'. split; [done|]. split.
    + intros x [->|Hx]%elem_of_cons; [|by apply Hin].
      rewrite Hout by done. by rewrite lookup_insert_eq.
    + intros x [Hxk Hx]%not_elem_of_cons. rewrite Hout by done.
      by rewrite lookup_insert_ne.
Qed.

(** The decorator applied to kinds that are pairwise different and not yet
    bound registers the adapted resolver for each of them and leaves the
    other kinds alone. *)
Theorem workload_resolver_registers (kinds : list WorkloadType) (f : raw_resolver)
    (reg : registry) :
  kinds ≠ [] →
  NoDup kinds →
  (∀ k, k ∈ kinds → reg !! k = None) →
  ∃ reg' : registry,
    workload_resolver kinds false f reg = (reg', Ok tt) ∧
    (∀ k, k ∈ kinds → lookup_resolver reg' k = Ok (decorated_function f)) ∧
    (∀ k, k ∉ kinds → lookup_resolver reg' k = lookup_resolver reg k).
Proof.
  intros Hne Hnd Hfree.
  destruct (register_each_unbound kinds (decorated_function f) reg Hnd Hfree)
    as (reg' & Hrun & Hin & Hout).
  exists reg'. split; [by destruct kinds|]. unfold lookup_resolver. split.
  - intros k Hk. by rewrite (Hin k Hk).
  - intros k Hk. by rewrite (Hout k Hk).
Qed.

Lemma workload_resolver_registers_witness :
  ∃ reg' : gmap WorkloadType resolver,
    workload_resolver [roll_table; roll_stats] false leaf_resolver ∅ = (reg', Ok tt) ∧
    (∀ k, k ∈ [roll_table; roll_stats] →
          lookup_resolver reg' k = Ok (decorated_function leaf_resolver)) ∧
    (∀ k, k ∉ [roll_table; roll_stats] → lookup_resolver reg' k = lookup_resolver ∅ k).
Proof.
  apply (workload_resolver_registers [roll_table; roll_stats] leaf_resolver ∅).
  - discriminate.
  - apply NoDup_cons. split; [by intros [=]%list_elem_of_singleton|apply NoDup_singleton].
  - intros k _. reflexivity.
Defined.

(** The decorator registers its kinds one after the other and stops at the
    first one that is taken: a kind bound before, or a kind that occurs a
    second time in the list.  The kinds before it stay registered, the kinds
    after it are not, and the taken kind keeps the resolver it had. *)
Theorem workload_resolver_stops_at_taken (pre post : list WorkloadType) k
    (f : raw_resolver) (reg : registry) :
  NoDup pre →
  (∀ x, x ∈ pre → reg !! x = None) →
  k ∈ pre ∨ is_Some (reg !! k) →
  ∃ (reg' : registry) msg,
    workload_resolver (pre ++ k :: post) false f reg = (reg', Raise (AssertionError msg)) ∧
    (∀ x, x ∈ pre → reg' !! x = Some (decorated_function f)) ∧
    (∀ x, x ∉ pre → reg' !! x = reg !! x).
Proof.
  intros Hnd Hfree Htaken.
  destruct (register_each_unbound pre (decorated_function f) reg Hnd Hfree)
    as (reg1 & Hrun & Hin & Hout).
  assert (is_Some (reg1 !! k)) as [r1 Hr1].
  { destruct (decide (k ∈ pre)) as [Hk|Hk]; [rewrite (Hin k Hk); eauto|].
    rewrite (Hout k Hk). by destruct Htaken. }
  exists reg1. eexists. split; [|done].
  assert (workload_resolver (pre ++ k :: post) false f reg
          = register_each (pre ++ k :: post) (decorated_function f) false reg) as ->.
  { unfold workload_resolver. by destruct pre. }
  rewrite register_each_app, Hrun. simpl. unfold _register_resolver.
  rewrite bool_decide_eq_false_2 by (by rewrite Hr1). simpl. reflexivity.
Qed.

Lemma workload_resolver_stops_at_taken_witness :
  ∃ (reg' : gmap WorkloadType resolver) msg,
    workload_resolver ([roll_table] ++ roll_table :: [roll_stats]) false leaf_resolver ∅
    = (reg', Raise (AssertionError msg)) ∧
    (∀ x, x ∈ [roll_table] → reg' !! x = Some (decorated_function leaf_resolver)) ∧
    (∀ x, x ∉ [roll_table] → reg' !! x = (∅ : gmap WorkloadType resolver) !! x).
Proof.
  apply (workload_resolver_stops_at_taken [roll_table] [roll_stats] roll_table
           leaf_resolver ∅).
  - apply NoDup_singleton.
  - intros x _. reflexivity.
  - left. by left.
Defined.

(** With [override] the decorator never fails on a non-empty list of kinds:
    every kind of the list ends up bound to the adapted resolver, whatever
    was bound before. *)
Theorem workload_resolver_override (kinds : list WorkloadType) (f : raw_resolver)
    (reg : registry) :
  kinds ≠ [] →
  ∃ reg' : registry,
    workload_resolver kinds true f reg = (reg', Ok tt) ∧
    (∀ k, k ∈ kinds → lookup_resolver reg' k = Ok (decorated_function f)) ∧
    (∀ k, k ∉ kinds → lookup_resolver reg' k = lookup_resolver reg k).
Proof.
  intros Hne.
  assert (∀ reg0 : registry, ∃ reg' : registry,
            register_each kinds (decorated_function f) true reg0 = (reg', Ok tt) ∧
            (∀ k, k ∈ kinds → reg' !! k = Some (decorated_function f)) ∧
            (∀ k, k ∉ kinds → reg' !! k = reg0 !! k)) as Hall.
  { clear Hne. induction kinds as [|k kinds IH]; intros reg0.
    - exists reg0. split; [done|]. split; [by intros k ?%elem_of_nil|done].
    - simpl. destruct (IH (<[k := decorated_function f]> reg0)) as (reg' & Hrun & Hin & Hout).
      exists reg'. split; [done|]. split.
      + intros x Hx. destruct (decide (x ∈ kinds)) as [Hxk|Hxk]; [by apply Hin|].
        apply elem_of_cons in Hx as [->|Hx]; [|done].
        rewrite Hout by done. by rewrite lookup_insert_eq.
      + intros x [Hxk Hx]%not_elem_of_cons. rewrite Hout by done.
        by rewrite lookup_insert_ne. }
  destruct (Hall reg) as (reg' & Hrun & Hin & Hout).
  exists reg'. split; [by destruct kinds|]. unfold lookup_resolver. split.
  - intros k Hk. by rewrite (Hin k Hk).
  - intros k Hk. by rewrite (Hout k Hk).
Qed.

Lemma workload_resolver_override_witness :
  ∃ reg' : gmap WorkloadType resolver,
    workload_resolver [roll_table] true silent_resolver scenario_registry = (reg', Ok tt) ∧
    (∀ k, k ∈ [roll_table] → lookup_resolver reg' k = Ok (decorated_function silent_resolver)) ∧
    (∀ k, k ∉ [roll_table] → lookup_resolver reg' k = lookup_resolver scenario_registry k).
Proof.
  apply (workload_resolver_override [roll_table] silent_resolver scenario_registry).
  discriminate.
Defined.

(** ** [do_my_work] *)

(** The constructor takes any value as [args], but [do_my_work] unpacks it
    with a star: a node made with [args] that cannot be iterated ([None],
    which the [Optional] of the dataclass allows, or a number) fails with
    [TypeError] when it is worked on, before its resolver is called, and
    stays as the constructor left it. *)
Theorem args_not_iterable_fails (reg : registry) k (r : resolver) a (h : heap) :
  parents_closed h →
  py_iter a = None →
  reg !! k = Some r →
  ∃ h' : heap,
    WorkNode_call k [("args", a)] h = (h', Ok (fresh (dom h))) ∧
    do_my_work reg (fresh (dom h)) h'
    = (h', Raise (TypeError "argument after * must be an iterable")) ∧
    h' !! fresh (dom h)
    = Some (mkWorkNode k a ∅ false PNone (default_name k) None []).
Proof.
  intros Hclosed Ha Hr.
  destruct (WorkNode_call_spec k [("args", a)] None h Hclosed)
    as (h' & Hcall & _ & Hself & _); [|done|done|].
  { constructor; [|constructor]. by left. }
  assert (h' !! fresh (dom h)
          = Some (mkWorkNode k a ∅ false PNone (default_name k) None [])) as Hnode
    by exact Hself.
  exists h'. split; [done|]. split; [|done].
  unfold do_my_work. rewrite (bind_ok _ _ _ _ _ (deref_ok _ _ _ Hnode)).
  unfold lookup_resolver. simpl. by rewrite Hr, Ha.
Qed.

Lemma args_not_iterable_fails_witness :
  ∃ h' : gmap nat WorkNode,
    WorkNode_call roll_table [("args", PNone)] ∅ = (h', Ok 0) ∧
    do_my_work scenario_registry 0 h'
    = (h', Raise (TypeError "argument after * must be an iterable")) ∧
    h' !! 0 = Some (mkWorkNode roll_table PNone ∅ false PNone (default_name roll_table)
                      None []).
Proof.
  assert (fresh (dom (∅ : gmap nat WorkNode)) = 0) as Hid by (vm_compute; reflexivity).
  rewrite <- Hid.
  apply (args_not_iterable_fails scenario_registry roll_table
           (decorated_function leaf_resolver) PNone ∅).
  - by intros x n p ?.
  - reflexivity.
  - reflexivity.
Defined.

(** When the resolver keeps the contract, [do_my_work] succeeds: the output
    is stored, the nodes returned become children of the node, after the
    children it already had and in the order the resolver returned them,
    each with the node as parent, and the node is finished; no other node
    is touched. *)
Theorem do_my_work_attaches_in_order P (reg : registry) c (h h1 : heap) n
    (r : resolver) args_ new_work out :
  parents_closed h →
  h !! c = Some n →
  reg !! work_type n = Some r →
  py_iter (args n) = Some args_ →
  well_behaved P r →
  r args_ (kwargs n) h = (h1, Ok (new_work, out)) →
  ∃ ids (h' : heap),
    new_work = PList (PNode <$> ids) ∧
    do_my_work reg c h = (h', Ok tt) ∧
    h' !! c = Some (with_finished true
                      (with_children (children n ++ ids) (with_output out n))) ∧
    (∀ x, x ∈ ids → ∃ m, h1 !! x = Some m ∧ h' !! x = Some (with_parent (Some c) m)) ∧
    (∀ x, x ≠ c → x ∉ ids → h' !! x = h1 !! x).
Proof.
  intros Hclosed Hn Hr Hargs Hwb Hcall.
  destruct (Hwb _ _ _ _ _ Hclosed Hcall)
    as (Hframe & Hclosed1 & ids & lnew & -> & Hforest & Hnd & Hfresh & HP & Hroots).
  pose proof (Hframe _ _ Hn) as Hn1.
  set (g := <[c := with_output out n]> h1).
  assert (∀ x, x ∈ ids → h !! x = None) as Hidsfresh.
  { intros x Hx. apply Hfresh. by eapply preorder_forest_roots. }
  assert (NoDup ids) as Hndids.
  { clear -Hforest Hnd. induction Hforest as [|c cs l1 l2 Hc Hcs IH]; [constructor|].
    apply NoDup_app in Hnd as (Hnd1 & Hdisj & Hnd2). constructor; [|by apply IH].
    intros Hin. destruct (preorder_of_head _ _ _ Hc) as [l' ->].
    apply (Hdisj c); [by left|]. by eapply preorder_forest_roots. }
  assert (∀ x, x ∈ ids → x ≠ c) as Hidsc.
  { intros x Hx ->. rewrite (Hidsfresh c Hx) in Hn. done. }
  destruct (attach_children (λ y, is_Some (h !! y)) c ids g (with_output out n))
    as (g' & Hloop & Hc' & Hids & Hrest).
  { done. }
  { intros x Hx [m Hm]. rewrite (Hidsfresh x Hx) in Hm. done. }
  { eauto. }
  { intros y m p [my Hy] Hm Hp. unfold g in Hm.
    destruct (decide (y = c)) as [->|Hyc].
    - rewrite lookup_insert_eq in Hm. injection Hm as <-.
      exact (Hclosed _ _ _ Hn Hp).
    - rewrite lookup_insert_ne in Hm by done.
      rewrite (Hframe _ _ Hy) in Hm. injection Hm as <-.
      exact (Hclosed _ _ _ Hy Hp). }
  { unfold g. by rewrite lookup_insert_eq. }
  { intros x Hx. destruct (Hroots x Hx) as (m & Hm & Hp). exists m. split; [|done].
    unfold g. rewrite lookup_insert_ne; [done|]. intros <-. by apply (Hidsc c). }
  exists ids. eexists. split; [done|]. split; [|split; [|split]].
  - unfold do_my_work. rewrite (bind_ok _ _ _ _ _ (deref_ok _ _ _ Hn)).
    unfold lookup_resolver. rewrite Hr, Hargs.
    rewrite (bind_ok _ _ _ _ _ Hcall).
    rewrite (bind_ok _ _ _ _ _ (update_node_ok _ (with_output out) _ _ Hn1)).
    fold g.
    assert ((if truthy (PList (PNode <$> ids))
             then match py_iter (PList (PNode <$> ids)) with
                  | Some items => for_each (attach_child c) items
                  | None => raise (TypeError "object is not iterable")
                  end
             else ret tt) g = (g', Ok tt)) as Hattach.
    { destruct ids; [|exact Hloop]. simpl. simpl in Hloop. done. }
    rewrite (bind_ok _ _ _ _ _ Hattach).
    apply (update_node_ok _ _ _ _ Hc').
  - by rewrite lookup_insert_eq.
  - intros x Hx. destruct (Hids x Hx) as (m & Hm & Hm'). exists m.
    unfold g in Hm. rewrite lookup_insert_ne in Hm by (intros <-; by eapply Hidsc).
    split; [done|]. rewrite lookup_insert_ne by (intros <-; by eapply Hidsc). done.
  - intros x Hxc Hx. rewrite lookup_insert_ne by done. rewrite Hrest by done.
    unfold g. by rewrite lookup_insert_ne.
Qed.

Lemma do_my_work_attaches_in_order_witness :
  ∃ ids (h' : gmap nat WorkNode),
    PList [PNode 1; PNode 2] = PList (PNode <$> ids) ∧
    do_my_work scenario_registry 0 (single_root parse_table) = (h', Ok tt) ∧
    h' !! 0 = Some (with_finished true
                      (with_children ([] ++ ids)
                         (with_output (PList [])
                            (mkWorkNode parse_table (PTuple []) ∅ false PNone
                               (PStr "'parse_table'") None [])))).
Proof.
  destruct (do_my_work_attaches_in_order as_constructed scenario_registry 0
              (single_root parse_table)
              (decorated_function two_children [] ∅ (single_root parse_table)).1
              (mkWorkNode parse_table (PTuple []) ∅ false PNone (PStr "'parse_table'") None [])
              (decorated_function two_children) []
              (PList [PNode 1; PNode 2]) (PList []))
    as (ids & h' & Hids & Hwork & Hc & _).
  - apply parents_closedb_sound. vm_compute. reflexivity.
  - vm_compute. reflexivity.
  - reflexivity.
  - reflexivity.
  - apply two_children_well_behaved.
  - vm_compute. reflexivity.
  - exists ids, h'. split; [exact Hids|]. split; [exact Hwork|exact Hc].
Defined.

(** The output is stored before the children are attached and [finished] is
    set last: when the resolver returns the very node that is being worked
    on, anytree refuses to make it its own parent, and [do_my_work] ends
    with [LoopError], the new output in place and [finished] not set. *)
Theorem do_my_work_own_node_as_child (reg : registry) c (h h1 : heap) n n1
    (r : resolver) args_ out :
  h !! c = Some n →
  reg !! work_type n = Some r →
  py_iter (args n) = Some args_ →
  r args_ (kwargs n) h = (h1, Ok (PList [PNode c], out)) →
  h1 !! c = Some n1 →
  parent n1 ≠ Some c →
  do_my_work reg c h = (<[c := with_output out n1]> h1, Raise LoopError).
Proof.
  intros Hn Hr Hargs Hcall Hn1 Hp.
  unfold do_my_work. rewrite (bind_ok _ _ _ _ _ (deref_ok _ _ _ Hn)).
  unfold lookup_resolver. rewrite Hr, Hargs.
  rewrite (bind_ok _ _ _ _ _ Hcall).
  rewrite (bind_ok _ _ _ _ _ (update_node_ok _ (with_output out) _ _ Hn1)).
  apply bind_raise. simpl. apply bind_raise. unfold set_parent.
  erewrite bind_ok; [|apply deref_ok; by rewrite lookup_insert_eq].
  simpl. destruct (decide (parent n1 = Some c)); [done|].
  apply bind_raise. unfold check_loop. by destruct (decide (c = c)).
Qed.

Lemma do_my_work_own_node_as_child_witness :
  let reg : gmap WorkloadType resolver :=
    <[roll_table := decorated_function identity_resolver]> ∅ in
  let h := (WorkNode_call roll_table [("args", PTuple [PNode 0])] ∅).1 in
  ∃ h' : gmap nat WorkNode,
    do_my_work reg 0 h = (h', Raise LoopError) ∧
    finished <$> h' !! 0 = Some false.
Proof.
  intros reg h. eexists. split.
  - apply (do_my_work_own_node_as_child reg 0 h h
             (mkWorkNode roll_table (PTuple [PNode 0]) ∅ false PNone
                (PStr "'roll_table'") None [])
             (mkWorkNode roll_table (PTuple [PNode 0]) ∅ false PNone
                (PStr "'roll_table'") None [])
             (decorated_function identity_resolver) [PNode 0] PNone).
    + vm_compute. reflexivity.
    + reflexivity.
    + reflexivity.
    + vm_compute. reflexivity.
    + vm_compute. reflexivity.
    + discriminate.
  - vm_compute. reflexivity.
Defined.


(** ** The resolvers of [workload.py] *)

(** A constructor call without [parent]. *)
Lemma WorkNode_call_parentless k kw (h : heap) :
  parents_closed h →
  Forall (λ p, p ∈ WorkNode_parameters) kw.*1 →
  keyword_default kw "parent" PNone = PNone →
  ∃ h' : heap,
    WorkNode_call k kw h = (h', Ok (fresh (dom h))) ∧
    h !! fresh (dom h) = None ∧
    h' !! fresh (dom h)
    = Some (mkWorkNode k (keyword_default kw "args" (PTuple [])) ∅ false PNone
              (if truthy (keyword_default kw "name" PNone)
               then keyword_default kw "name" PNone else default_name k)
              None []) ∧
    (∀ x m, h !! x = Some m → h' !! x = Some m) ∧
    (∀ x, x ≠ fresh (dom h) → h' !! x = h !! x) ∧
    parents_closed h'.
Proof.
  intros Hclosed Hkw Hparent.
  destruct (WorkNode_call_spec k kw None h Hclosed Hkw Hparent)
    as (h' & Hcall & Hfresh & Hself & _ & Hrest); [done|].
  exists h'. split; [done|]. split; [done|]. split; [done|].
  assert (∀ x m, h !! x = Some m → h' !! x = Some m) as Hframe.
  { intros x m Hm. rewrite Hrest; [done| |done]. intros ->. congruence. }
  split; [done|]. split; [intros x Hx; by apply Hrest|].
  intros x m p Hm Hp.
  destruct (decide (x = fresh (dom h))) as [->|Hx].
  - rewrite Hself in Hm. injection Hm as <-. done.
  - rewrite Hrest in Hm by done. destruct (Hclosed _ _ _ Hm Hp) as [mp Hmp].
    rewrite (Hframe _ _ Hmp). eauto.
Qed.

Lemma nodes_split (ids : list nat) :
  normalize (PList (PNode <$> ids)) = (PList (PNode <$> ids), PList []).
Proof.
  rewrite (normalize_iterable (PList (PNode <$> ids)) (PNode <$> ids) eq_refl).
  f_equal; f_equal.
  - induction ids as [|x ids IH]; [done|]. rewrite fmap_cons.
    rewrite filter_cons_True by done. by rewrite IH.
  - induction ids as [|x ids IH]; [done|]. rewrite fmap_cons.
    rewrite filter_cons_False; [done|]. simpl. tauto.
Qed.

Lemma top_level_comment_nodes_spec (comments : list pyval) :
  ∀ i (h : heap),
    parents_closed h →
    ∃ ids (h' : heap),
      top_level_comment_nodes i comments h = (h', Ok (PNode <$> ids)) ∧
      length ids = length comments ∧
      NoDup ids ∧
      (∀ x, x ∈ ids → h !! x = None) ∧
      (∀ j x, ids !! j = Some x →
         ∃ comment, comments !! j = Some comment ∧
           h' !! x = Some (mkWorkNode parse_comment_for_table (PTuple [comment]) ∅ false
                             PNone (PStr ("Top-level comment " +:+ pretty (i + j + 1)))
                             None [])) ∧
      (∀ x m, h !! x = Some m → h' !! x = Some m) ∧
      (∀ x, x ∉ ids → h' !! x = h !! x) ∧
      parents_closed h'.
Proof.
  induction comments as [|comment comments IH]; intros i h Hclosed.
  - exists [], h. split; [done|]. split; [done|]. split; [constructor|].
    split; [by intros x ?%elem_of_nil|]. split; [by intros j x ?|]. done.
  - destruct (WorkNode_call_parentless parse_comment_for_table
                [("args", PTuple [comment]);
                 ("name", PStr ("Top-level comment " +:+ pretty (i + 1)))] h Hclosed)
      as (h1 & Hcall & Hfresh & Hself & Hframe1 & Hrest1 & Hclosed1); [|done|].
    { constructor; [by left|]. constructor; [|constructor]. right. by left. }
    destruct (IH (S i) h1 Hclosed1)
      as (ids & h' & Hrun & Hlen & Hnd & Hnew & Hnodes & Hframe & Hrest & Hclosed').
    set (a := fresh (dom h)) in *.
    assert (a ∉ ids) as Ha.
    { intros Hin. rewrite (Hnew a Hin) in Hself. done. }
    exists (a :: ids), h'. split.
    { simpl. rewrite (bind_ok _ _ _ _ _ Hcall), (bind_ok _ _ _ _ _ Hrun). done. }
    split; [simpl; by rewrite Hlen|]. split; [by constructor|].
    split; [|split; [|split; [|split]]].
    + intros x [->|Hx]%elem_of_cons; [done|].
      destruct (h !! x) as [m|] eqn:Hm; [|done].
      pose proof (Hnew x Hx) as Hx1. rewrite (Hframe1 _ _ Hm) in Hx1. done.
    + intros [|j] x Hj; simpl in Hj.
      * injection Hj as <-. exists comment. split; [done|].
        rewrite Nat.add_0_r. apply Hframe. exact Hself.
      * destruct (Hnodes j x Hj) as (cm & Hcm & Hx). exists cm. split; [done|].
        replace (i + S j + 1) with (S i + j + 1) by lia. done.
    + intros x m Hm. apply Hframe, Hframe1, Hm.
    + intros x [Hxa Hx]%not_elem_of_cons. rewrite Hrest by done. by apply Hrest1.
    + done.
Qed.

(** [scan_top_level_comments] makes one new node for each comment, in the
    order of the comments: a parentless, unfinished node of kind
    [parse_comment_for_table] with the comment as its only argument, named
    ["Top-level comment i"] with [i] counted from 1.  Through the adapter
    these nodes are the new work and the output is the empty list; for no
    comments nothing is made.  Nodes that exist are left alone. *)
Theorem scan_top_level_comments_makes_nodes comments items (h : heap) :
  parents_closed h →
  py_iter comments = Some items →
  ∃ ids (h' : heap),
    decorated_function scan_top_level_comments [comments] ∅ h
    = (h', Ok (PList (PNode <$> ids), PList [])) ∧
    length ids = length items ∧
    NoDup ids ∧
    (∀ x, x ∈ ids → h !! x = None) ∧
    (∀ j x, ids !! j = Some x →
       ∃ comment, items !! j = Some comment ∧
         h' !! x = Some (mkWorkNode parse_comment_for_table (PTuple [comment]) ∅ false
                           PNone (PStr ("Top-level comment " +:+ pretty (j + 1)))
                           None [])) ∧
    (∀ x, x ∉ ids → h' !! x = h !! x).
Proof.
  intros Hclosed Hitems.
  destruct (top_level_comment_nodes_spec items 0 h Hclosed)
    as (ids & h' & Hrun & Hlen & Hnd & Hnew & Hnodes & _ & Hrest & _).
  exists ids, h'. split; [|done].
  unfold decorated_function, scan_top_level_comments.
  unfold bind_parameter. rewrite map_to_list_empty.
  unfold bind at 2. unfold ret at 1. rewrite Hitems.
  unfold bind at 1. unfold bind at 1. rewrite Hrun.
  unfold ret. by rewrite nodes_split.
Qed.

Lemma scan_top_level_comments_makes_nodes_witness :
  ∃ ids (h' : gmap nat WorkNode),
    decorated_function scan_top_level_comments [PList [PStr "a"; PStr "b"]] ∅ ∅
    = (h', Ok (PList (PNode <$> ids), PList [])) ∧
    length ids = 2.
Proof.
  destruct (scan_top_level_comments_makes_nodes (PList [PStr "a"; PStr "b"])
              [PStr "a"; PStr "b"] ∅)
    as (ids & h' & Hrun & Hlen & _).
  - by intros x n p ?.
  - reflexivity.
  - exists ids, h'. split; [exact Hrun|exact Hlen].
Defined.

Lemma bind_parameter_pure p args_ kwargs_ (h h' : heap) res :
  bind_parameter p args_ kwargs_ h = (h', res) → h' = h.
Proof.
  unfold bind_parameter.
  destruct args_ as [|v [|? ?]], (map_to_list kwargs_) as [|[k w] [|? ?]];
    try (by intros [= <- _]).
  by destruct (String.eqb k p); intros [= <- _].
Qed.

Lemma getattr_pure v a (h h' : heap) res : getattr v a h = (h', res) → h' = h.
Proof.
  unfold getattr. destruct v; try (by intros [= <- _]).
  by destruct (assoc_lookup a attrs); intros [= <- _].
Qed.

Lemma py_list_pure v (h h' : heap) res : py_list v h = (h', res) → h' = h.
Proof. unfold py_list. by destruct (py_iter v); intros [= <- _]. Qed.

Lemma preorder_forest_leaves (h : heap) ids :
  (∀ x, x ∈ ids → ∃ n, h !! x = Some n ∧ children n = []) →
  preorder_forest h ids ids.
Proof.
  induction ids as [|x ids IH]; intros Hleaf; [constructor|].
  destruct (Hleaf x ltac:(by left)) as (n & Hn & Hc).
  change (x :: ids) with ([x] ++ ids) at 2.
  constructor; [by eapply preorder_of_leaf|]. apply IH. intros y Hy. apply Hleaf. by right.
Qed.

(** New parentless nodes without children are new work. *)
Lemma new_work_of_leaves P (h h' : heap) ids :
  NoDup ids →
  (∀ x, x ∈ ids → h !! x = None) →
  (∀ x, x ∈ ids → ∃ n, h' !! x = Some n ∧ children n = [] ∧ parent n = None ∧ P n) →
  new_work_of P h h' (PList (PNode <$> ids)).
Proof.
  intros Hnd Hnew Hleaf. exists ids, ids. split; [done|]. split.
  { apply preorder_forest_leaves. intros x Hx.
    destruct (Hleaf x Hx) as (n & ? & ? & _). eauto. }
  split; [done|]. split; [done|]. split.
  - intros x Hx. destruct (Hleaf x Hx) as (n & ? & _ & _ & ?). eauto.
  - intros x Hx. destruct (Hleaf x Hx) as (n & ? & _ & ? & _). eauto.
Qed.

Lemma constructed_leaf (h : heap) x k a nm :
  h !! x = Some (mkWorkNode k a ∅ false PNone nm None []) →
  ∃ n, h !! x = Some n ∧ children n = [] ∧ parent n = None ∧ as_constructed n.
Proof. intros Hx. eexists. split; [exact Hx|]. by repeat split. Qed.

(** A resolver that only makes new leaves keeps the resolver contract. *)
Lemma only_new_leaves_well_behaved (r : resolver) :
  makes_only_new_leaves r → well_behaved as_constructed r.
Proof.
  intros Hr args_ kwargs_ h h1 res Hclosed Hrun.
  specialize (Hr args_ kwargs_ h h1 res Hclosed Hrun).
  destruct res as [[new_work out]|e].
  - destruct Hr as (ids & -> & Hnd & Hnew & Hleaf & Hrest).
    assert (∀ x n, h !! x = Some n → h1 !! x = Some n) as Hframe.
    { intros x n Hx. rewrite Hrest; [done|]. intros Hin. rewrite (Hnew x Hin) in Hx. done. }
    split; [done|]. split.
    + intros x m p Hm Hp. destruct (decide (x ∈ ids)) as [Hin|Hout].
      * destruct (Hleaf x Hin) as (n & Hn & _ & Hpar & _).
        rewrite Hn in Hm. injection Hm as <-. congruence.
      * rewrite (Hrest x Hout) in Hm. destruct (Hclosed _ _ _ Hm Hp) as [mp Hmp].
        rewrite (Hframe _ _ Hmp). eauto.
    + by apply new_work_of_leaves.
  - subst h1. done.
Qed.

Lemma scan_top_level_comments_only_new_leaves :
  makes_only_new_leaves (decorated_function scan_top_level_comments).
Proof.
  intros args_ kwargs_ h h1 res Hclosed. unfold decorated_function, scan_top_level_comments.
  intros [(g & v & Hraw & [= <- <-])|(e & Hraw & ->)]%bind_inv.
  - apply bind_inv in Hraw as [(g' & comments & Hp & Hraw)|(e & _ & [=])].
    apply bind_parameter_pure in Hp as ->.
    destruct (py_iter comments) as [items|]; [|done].
    apply bind_inv in Hraw as [(g' & nodes & Hrun & [= <- <-])|(e & _ & [=])].
    destruct (top_level_comment_nodes_spec items 0 h Hclosed)
      as (ids & h' & Hrun' & Hlen & Hnd & Hnew & Hnodes & _ & Hrest & _).
    rewrite Hrun' in Hrun. injection Hrun as <- <-.
    rewrite nodes_split. exists ids.
    split; [done|]. split; [done|]. split; [done|]. split; [|done].
    intros x [j Hj]%list_elem_of_lookup.
    destruct (Hnodes j x Hj) as (comment & _ & Hx). by eapply constructed_leaf.
  - apply bind_inv in Hraw as [(g' & comments & Hp & Hraw)|(e' & Hp & _)].
    + apply bind_parameter_pure in Hp as ->.
      destruct (py_iter comments) as [items|]; [|by injection Hraw as <- _].
      apply bind_inv in Hraw as [(g' & nodes & _ & [=])|(e' & Hrun & _)].
      destruct (top_level_comment_nodes_spec items 0 h Hclosed)
        as (ids & h' & Hrun' & _).
      rewrite Hrun' in Hrun. done.
    + by apply bind_parameter_pure in Hp as ->.
Qed.

(** A resolver that reads one attribute of its argument and returns one new
    node, as [scan_comment_for_table] and [scan_submission_for_table] do. *)
Lemma attribute_then_node_only_new_leaves p a k :
  makes_only_new_leaves
    (decorated_function
       (λ args_ kwargs_,
          let* v := bind_parameter p args_ kwargs_ in
          let* x := getattr v a in
          let* node := WorkNode_call k [("args", PTuple [x])] in
          ret (PNode node))).
Proof.
  intros args_ kwargs_ h h1 res Hclosed. unfold decorated_function.
  intros Hrun.
  assert (∀ x, ∃ h' : heap,
            WorkNode_call k [("args", PTuple [x])] h = (h', Ok (fresh (dom h))) ∧
            h !! fresh (dom h) = None ∧
            h' !! fresh (dom h)
            = Some (mkWorkNode k (PTuple [x]) ∅ false PNone (default_name k) None []) ∧
            (∀ y, y ≠ fresh (dom h) → h' !! y = h !! y)) as Hcall.
  { intros x.
    destruct (WorkNode_call_parentless k [("args", PTuple [x])] h Hclosed)
      as (h' & ? & ? & ? & _ & ? & _); [|done|eauto 10].
    constructor; [by left|constructor]. }
  apply bind_inv in Hrun as [(g & v & Hraw & [= <- <-])|(e & Hraw & ->)].
  - apply bind_inv in Hraw as [(g1 & w & Hp & Hraw)|(e & _ & [=])].
    apply bind_parameter_pure in Hp as ->.
    apply bind_inv in Hraw as [(g1 & x & Hx & Hraw)|(e & _ & [=])].
    apply getattr_pure in Hx as ->.
    destruct (Hcall x) as (h' & Hrun' & Hfresh & Hself & Hrest).
    unfold bind, ret in Hraw. rewrite Hrun' in Hraw. injection Hraw as <- <-.
    change (normalize (PNode (fresh (dom h))))
      with (PList (PNode <$> [fresh (dom h)]), PNone).
    exists [fresh (dom h)]. split; [done|]. split; [apply NoDup_singleton|].
    split; [by intros y ->%list_elem_of_singleton|]. split.
    + intros y ->%list_elem_of_singleton. by eapply constructed_leaf.
    + intros y Hy. apply Hrest. intros ->. apply Hy. by apply list_elem_of_singleton.
  - apply bind_inv in Hraw as [(g1 & w & Hp & Hraw)|(e' & Hp & _)].
    2:{ by apply bind_parameter_pure in Hp as ->. }
    apply bind_parameter_pure in Hp as ->.
    apply bind_inv in Hraw as [(g1 & x & Hx & Hraw)|(e' & Hx & _)].
    2:{ by apply getattr_pure in Hx as ->. }
    apply getattr_pure in Hx as ->.
    destruct (Hcall x) as (h' & Hrun' & _).
    unfold bind, ret in Hraw. rewrite Hrun' in Hraw. done.
Qed.

(** Three constructor calls in a row, each without [parent]. *)
Lemma three_parentless_calls (h : heap) k1 kw1 k2 kw2 k3 kw3 :
  parents_closed h →
  Forall (λ p, p ∈ WorkNode_parameters) kw1.*1 →
  keyword_default kw1 "parent" PNone = PNone →
  Forall (λ p, p ∈ WorkNode_parameters) kw2.*1 →
  keyword_default kw2 "parent" PNone = PNone →
  Forall (λ p, p ∈ WorkNode_parameters) kw3.*1 →
  keyword_default kw3 "parent" PNone = PNone →
  ∃ (h1 h2 h3 : heap) a b c,
    WorkNode_call k1 kw1 h = (h1, Ok a) ∧
    WorkNode_call k2 kw2 h1 = (h2, Ok b) ∧
    WorkNode_call k3 kw3 h2 = (h3, Ok c) ∧
    NoDup [a; b; c] ∧
    (∀ x, x ∈ [a; b; c] → h !! x = None) ∧
    h3 !! a = Some (mkWorkNode k1 (keyword_default kw1 "args" (PTuple [])) ∅ false PNone
                      (if truthy (keyword_default kw1 "name" PNone)
                       then keyword_default kw1 "name" PNone else default_name k1)
                      None []) ∧
    h3 !! b = Some (mkWorkNode k2 (keyword_default kw2 "args" (PTuple [])) ∅ false PNone
                      (if truthy (keyword_default kw2 "name" PNone)
                       then keyword_default kw2 "name" PNone else default_name k2)
                      None []) ∧
    h3 !! c = Some (mkWorkNode k3 (keyword_default kw3 "args" (PTuple [])) ∅ false PNone
                      (if truthy (keyword_default kw3 "name" PNone)
                       then keyword_default kw3 "name" PNone else default_name k3)
                      None []) ∧
    (∀ x m, h !! x = Some m → h3 !! x = Some m) ∧
    (∀ x, x ∉ [a; b; c] → h3 !! x = h !! x) ∧
    parents_closed h3.
Proof.
  intros Hclosed Hk1 Hp1 Hk2 Hp2 Hk3 Hp3.
  destruct (WorkNode_call_parentless k1 kw1 h Hclosed Hk1 Hp1)
    as (h1 & Hc1 & Hf1 & Hs1 & Hfr1 & Hr1 & Hcl1).
  destruct (WorkNode_call_parentless k2 kw2 h1 Hcl1 Hk2 Hp2)
    as (h2 & Hc2 & Hf2 & Hs2 & Hfr2 & Hr2 & Hcl2).
  destruct (WorkNode_call_parentless k3 kw3 h2 Hcl2 Hk3 Hp3)
    as (h3 & Hc3 & Hf3 & Hs3 & Hfr3 & Hr3 & Hcl3).
  set (a := fresh (dom h)) in *. set (b := fresh (dom h1)) in *.
  set (c := fresh (dom h2)) in *.
  assert (a ≠ b) as Hab by (intros Heq; rewrite <- Heq in Hf2; congruence).
  assert (a ≠ c) as Hac.
  { intros Heq. rewrite <- Heq in Hf3. rewrite (Hfr2 _ _ Hs1) in Hf3. done. }
  assert (b ≠ c) as Hbc by (intros Heq; rewrite <- Heq in Hf3; congruence).
  assert (h !! b = None) as Hb.
  { destruct (h !! b) as [m|] eqn:Hm; [|done]. rewrite (Hfr1 _ _ Hm) in Hf2. done. }
  assert (h !! c = None) as Hc.
  { destruct (h !! c) as [m|] eqn:Hm; [|done].
    rewrite (Hfr2 _ _ (Hfr1 _ _ Hm)) in Hf3. done. }
  exists h1, h2, h3, a, b, c.
  split; [done|]. split; [done|]. split; [done|]. split.
  { apply NoDup_cons. split.
    - intros [->|[->|?%elem_of_nil]%elem_of_cons]%elem_of_cons; done.
    - apply NoDup_cons. split; [by intros ->%list_elem_of_singleton|apply NoDup_singleton]. }
  split.
  { intros x [->|[->|[->|?%elem_of_nil]%elem_of_cons]%elem_of_cons]%elem_of_cons; done. }
  split; [apply Hfr3, Hfr2, Hs1|]. split; [apply Hfr3, Hs2|]. split; [done|].
  split; [intros x m Hm; apply Hfr3, Hfr2, Hfr1, Hm|]. split; [|done].
  intros x Hx. rewrite !not_elem_of_cons in Hx. destruct Hx as (? & ? & ? & _).
  rewrite Hr3, Hr2, Hr1; done.
Qed.

(** [process_username_mention] turns a mention into three new tasks, in this
    order: look in the mention itself, look in the submission it belongs to,
    and look in the top-level comments of that submission.  Through the
    adapter the three nodes are the new work and the output is the empty
    list. *)
Theorem process_username_mention_makes_three mention op comments items (h : heap) :
  parents_closed h →
  getattr mention "submission" h = (h, Ok op) →
  getattr op "comments" h = (h, Ok comments) →
  py_iter comments = Some items →
  ∃ a b c (h' : heap),
    decorated_function process_username_mention [mention] ∅ h
    = (h', Ok (PList [PNode a; PNode b; PNode c], PList [])) ∧
    NoDup [a; b; c] ∧
    (∀ x, x ∈ [a; b; c] → h !! x = None) ∧
    h' !! a = Some (mkWorkNode parse_comment_for_table (PTuple [mention]) ∅ false PNone
                      (PStr "Look in mention for tables") None []) ∧
    h' !! b = Some (mkWorkNode parse_op (PTuple [op]) ∅ false PNone
                      (PStr "Search OP for tables") None []) ∧
    h' !! c = Some (mkWorkNode parse_top_level_comments (PTuple [PList items]) ∅ false PNone
                      (PStr "Search top-level comments for tables.") None []) ∧
    (∀ x, x ∉ [a; b; c] → h' !! x = h !! x).
Proof.
  intros Hclosed Hop Hcomments Hitems.
  destruct (three_parentless_calls h
              parse_comment_for_table
              [("args", PTuple [mention]); ("name", PStr "Look in mention for tables")]
              parse_op
              [("args", PTuple [op]); ("name", PStr "Search OP for tables")]
              parse_top_level_comments
              [("args", PTuple [PList items]);
               ("name", PStr "Search top-level comments for tables.")] Hclosed)
    as (h1 & h2 & h3 & a & b & c & Hc1 & Hc2 & Hc3 & Hnd & Hnew & Ha & Hb & Hc & _ & Hrest & _);
    try done; try (constructor; [by left|constructor; [right; by left|constructor]]).
  exists a, b, c, h3. split; [|done].
  unfold decorated_function, process_username_mention.
  unfold bind_parameter. rewrite map_to_list_empty.
  unfold bind, ret. cbv beta iota. rewrite Hop. cbv beta iota.
  rewrite Hcomments. cbv beta iota. unfold py_list. rewrite Hitems. unfold ret.
  cbv beta iota. rewrite Hc1. cbv beta iota. rewrite Hc2. cbv beta iota. rewrite Hc3. done.
Qed.

Lemma process_username_mention_makes_three_witness :
  let op := PObj [("selftext", PStr "s"); ("comments", PList [PObj []])] in
  let mention := PObj [("body", PStr "b"); ("submission", op)] in
  ∃ a b c (h' : gmap nat WorkNode),
    decorated_function process_username_mention [mention] ∅ ∅
    = (h', Ok (PList [PNode a; PNode b; PNode c], PList [])) ∧
    NoDup [a; b; c].
Proof.
  intros op mention.
  destruct (process_username_mention_makes_three mention op (PList [PObj []]) [PObj []] ∅)
    as (a & b & c & h' & Hrun & Hnd & _).
  - by intros x n p ?.
  - reflexivity.
  - reflexivity.
  - reflexivity.
  - exists a, b, c, h'. split; [exact Hrun|exact Hnd].
Defined.

Lemma process_username_mention_only_new_leaves :
  makes_only_new_leaves (decorated_function process_username_mention).
Proof.
  intros args_ kwargs_ h h1 res Hclosed Hrun.
  unfold decorated_function, process_username_mention in Hrun.
  assert (∀ mention op items, ∃ (g1 g2 g3 : heap) a b c,
    WorkNode_call parse_comment_for_table
      [("args", PTuple [mention]); ("name", PStr "Look in mention for tables")] h
    = (g1, Ok a) ∧
    WorkNode_call parse_op
      [("args", PTuple [op]); ("name", PStr "Search OP for tables")] g1 = (g2, Ok b) ∧
    WorkNode_call parse_top_level_comments
      [("args", PTuple [PList items]);
       ("name", PStr "Search top-level comments for tables.")] g2 = (g3, Ok c) ∧
    NoDup [a; b; c] ∧
    (∀ x, x ∈ [a; b; c] → h !! x = None) ∧
    (∀ x, x ∈ [a; b; c] →
       ∃ n, g3 !! x = Some n ∧ children n = [] ∧ parent n = None ∧ as_constructed n) ∧
    (∀ x, x ∉ [a; b; c] → g3 !! x = h !! x)) as Hcalls.
  { intros mention op items.
    destruct (three_parentless_calls h
                parse_comment_for_table
                [("args", PTuple [mention]); ("name", PStr "Look in mention for tables")]
                parse_op
                [("args", PTuple [op]); ("name", PStr "Search OP for tables")]
                parse_top_level_comments
                [("args", PTuple [PList items]);
                 ("name", PStr "Search top-level comments for tables.")] Hclosed)
      as (g1 & g2 & g3 & a & b & c & Hc1 & Hc2 & Hc3 & Hnd & Hnew & Ha & Hb & Hc
          & _ & Hrest & _);
      try done; try (constructor; [by left|constructor; [right; by left|constructor]]).
    exists g1, g2, g3, a, b, c. repeat (split; [done|]). split; [|done].
    intros x [->|[->|[->|?%elem_of_nil]%elem_of_cons]%elem_of_cons]%elem_of_cons;
      [| | |done]; by eapply constructed_leaf. }
  apply bind_inv in Hrun as [(g & v & Hraw & [= <- <-])|(e & Hraw & ->)].
  - apply bind_inv in Hraw as [(g0 & mention & Hp & Hraw)|(e & _ & [=])].
    apply bind_parameter_pure in Hp as ->.
    apply bind_inv in Hraw as [(g0 & op & Hx & Hraw)|(e & _ & [=])].
    apply getattr_pure in Hx as ->.
    apply bind_inv in Hraw as [(g0 & comments & Hx & Hraw)|(e & _ & [=])].
    apply getattr_pure in Hx as ->.
    apply bind_inv in Hraw as [(g0 & tlc & Hx & Hraw)|(e & _ & [=])].
    pose proof (py_list_pure _ _ _ _ Hx) as ->.
    unfold py_list in Hx. destruct (py_iter comments) as [items|]; [|done].
    injection Hx as <-.
    destruct (Hcalls mention op items)
      as (g1 & g2 & g3 & a & b & c & Hc1 & Hc2 & Hc3 & Hnd & Hnew & Hleaf & Hrest).
    unfold bind, ret in Hraw. rewrite Hc1 in Hraw. cbv beta iota in Hraw.
    rewrite Hc2 in Hraw. cbv beta iota in Hraw. rewrite Hc3 in Hraw.
    injection Hraw as <- <-.
    exists [a; b; c]. split; [done|]. split; [done|]. split; [done|]. split; done.
  - apply bind_inv in Hraw as [(g0 & mention & Hp & Hraw)|(e' & Hp & _)].
    2:{ by apply bind_parameter_pure in Hp as ->. }
    apply bind_parameter_pure in Hp as ->.
    apply bind_inv in Hraw as [(g0 & op & Hx & Hraw)|(e' & Hx & _)].
    2:{ by apply getattr_pure in Hx as ->. }
    apply getattr_pure in Hx as ->.
    apply bind_inv in Hraw as [(g0 & comments & Hx & Hraw)|(e' & Hx & _)].
    2:{ by apply getattr_pure in Hx as ->. }
    apply getattr_pure in Hx as ->.
    apply bind_inv in Hraw as [(g0 & tlc & Hx & Hraw)|(e' & Hx & _)].
    2:{ by apply py_list_pure in Hx as ->. }
    pose proof (py_list_pure _ _ _ _ Hx) as ->.
    unfold py_list in Hx. destruct (py_iter comments) as [items|]; [|done].
    injection Hx as <-.
    destruct (Hcalls mention op items)
      as (g1 & g2 & g3 & a & b & c & Hc1 & Hc2 & Hc3 & _).
    unfold bind, ret in Hraw. rewrite Hc1 in Hraw. cbv beta iota in Hraw.
    rewrite Hc2 in Hraw. cbv beta iota in Hraw. rewrite Hc3 in Hraw. done.
Qed.

Lemma module_registry_unfold :
  module_registry
  = <[username_mention := decorated_function process_username_mention]>
      (<[parse_op := decorated_function scan_submission_for_table]>
         (<[parse_comment_for_table := decorated_function scan_comment_for_table]>
            (<[parse_top_level_comments := decorated_function scan_top_level_comments]> ∅))).
Proof. reflexivity. Qed.

(** The resolvers that [workload.py] registers only make new leaves.  In a
    store in which every parent exists, whatever their arguments: when one of
    them raises it has changed nothing and made no node; when it returns, its
    new work is a list of different nodes that did not exist before, each
    without parent and children, not finished and without output, and every
    other node is as it was.  So they keep the resolver contract. *)
Theorem module_registry_only_new_leaves :
  (∀ k r, module_registry !! k = Some r → makes_only_new_leaves r) ∧
  registry_well_behaved as_constructed module_registry.
Proof.
  assert (∀ k r, module_registry !! k = Some r → makes_only_new_leaves r) as Hall.
  { intros k r. rewrite module_registry_unfold.
    repeat (rewrite lookup_insert; case_decide; [intros [= <-]|]).
    - apply process_username_mention_only_new_leaves.
    - apply (attribute_then_node_only_new_leaves "op" "selftext"
               parse_arbitrary_text_for_table).
    - apply (attribute_then_node_only_new_leaves "mention" "body"
               parse_arbitrary_text_for_table).
    - apply scan_top_level_comments_only_new_leaves.
    - by rewrite lookup_empty. }
  split; [exact Hall|].
  intros k r Hr. apply only_new_leaves_well_behaved. exact (Hall k r Hr).
Qed.

(** Of the kinds of [WorkloadType], the module binds four; looking up any
    other kind fails. *)
Theorem module_registry_kinds :
  lookup_resolver module_registry username_mention
  = Ok (decorated_function process_username_mention) ∧
  lookup_resolver module_registry parse_op
  = Ok (decorated_function scan_submission_for_table) ∧
  lookup_resolver module_registry parse_comment_for_table
  = Ok (decorated_function scan_comment_for_table) ∧
  lookup_resolver module_registry parse_top_level_comments
  = Ok (decorated_function scan_top_level_comments) ∧
  ∀ k, k ∉ [username_mention; parse_op; parse_comment_for_table; parse_top_level_comments] →
       lookup_resolver module_registry k = Raise (KeyError k).
Proof.
  rewrite module_registry_unfold. unfold lookup_resolver.
  repeat split; try reflexivity.
  intros k Hk. rewrite !not_elem_of_cons in Hk. destruct Hk as (? & ? & ? & ? & _).
  by rewrite !lookup_insert_ne, lookup_empty.
Qed.

(** ** The walk with the registry of the module *)

(** With the resolvers the module registers, a username mention cannot be
    worked through: the root makes its three tasks, the first of them makes
    a task of kind [parse_arbitrary_text_for_table], and that kind has no
    resolver, so the walk ends there with the lookup error.  The two other
    tasks of the root are never worked on. *)
Theorem username_mention_walk_fails body selftext comments fuel :
  let op := PObj [("selftext", selftext); ("comments", PList comments)] in
  let mention := PObj [("body", body); ("submission", op)] in
  let h0 := (WorkNode_call username_mention [("args", PTuple [mention])] ∅).1 in
  ∃ h : heap,
    do_all_work module_registry (3 + fuel) 0 h0
    = Raised (KeyError parse_arbitrary_text_for_table) 4 h [0; 1] ∧
    children <$> h !! 0 = Some [1; 2; 3] ∧
    children <$> h !! 1 = Some [4] ∧
    finished <$> h !! 2 = Some false ∧
    finished <$> h !! 3 = Some false ∧
    finished <$> h !! 4 = Some false.
Proof.
  intros op mention h0.
  assert (∃ h : heap,
            do_all_work module_registry 3 0 h0
            = Raised (KeyError parse_arbitrary_text_for_table) 4 h [0; 1] ∧
            children <$> h !! 0 = Some [1; 2; 3] ∧
            children <$> h !! 1 = Some [4] ∧
            finished <$> h !! 2 = Some false ∧
            finished <$> h !! 3 = Some false ∧
            finished <$> h !! 4 = Some false) as (h & Hrun & Hrest).
  { eexists. split; [vm_compute; reflexivity|]. vm_compute. done. }
  exists h. split; [|done].
  pose proof (iterate_more_fuel module_registry 3 fuel h0 [[0]] []) as Hmore.
  unfold do_all_work in *. rewrite Hrun in Hmore. exact Hmore.
Qed.

(** ** A parent that is not a node *)

(** The constructor hands [parent] to anytree, which refuses anything that
    is neither [None] nor a node: the call raises [TreeError], returns no
    node, and the nodes of the store are as they were. *)
Theorem WorkNode_call_bad_parent k kw v (h : heap) :
  Forall (λ p, p ∈ WorkNode_parameters) kw.*1 →
  keyword_default kw "parent" PNone = v →
  v ≠ PNone →
  is_WorkNode v = false →
  ∃ h' : heap,
    WorkNode_call k kw h = (h', Raise TreeError) ∧
    ∀ x m, h !! x = Some m → h' !! x = Some m.
Proof.
  intros Hkw Hv Hnone Hnode. unfold WorkNode_call.
  rewrite (filter_none_outside _ _ Hkw), Hv. unfold WorkNode_init.
  rewrite (bind_ok _ _ h (<[fresh (dom h) := _]> h) (fresh (dom h))) by done.
  eexists. split.
  - apply bind_raise. destruct v; try done.
  - intros x m Hm. rewrite lookup_insert_ne; [done|].
    intros <-. rewrite fresh_not_in in Hm. done.
Qed.

Lemma WorkNode_call_bad_parent_witness :
  ∃ h' : gmap nat WorkNode,
    WorkNode_call roll_table [("parent", PStr "root")] (single_root parse_table)
    = (h', Raise TreeError) ∧
    ∀ x m, single_root parse_table !! x = Some m → h' !! x = Some m.
Proof.
  apply (WorkNode_call_bad_parent roll_table [("parent", PStr "root")] (PStr "root")
           (single_root parse_table)).
  - constructor; [|constructor]. right. right. by left.
  - reflexivity.
  - discriminate.
  - reflexivity.
Defined.

(** ** The walk stays in its subtree *)

(** Under the contract [do_my_work] changes, among the nodes that exist, only
    the node it works on. *)
Lemma do_my_work_others P (reg : registry) c (h h' : heap) n res :
  registry_well_behaved P reg →
  parents_closed h →
  h !! c = Some n →
  do_my_work reg c h = (h', res) →
  ∀ x, is_Some (h !! x) → x ≠ c → h' !! x = h !! x.
Proof.
  intros Hreg Hclosed Hn Hwork x [m Hm] Hxc.
  pose proof (do_my_work_step P reg c h n h' res Hreg Hclosed Hn Hwork) as Hstep.
  destruct res as [[]|e].
  - destruct Hstep as (h1 & ids & lnew & out & Hframe & Hforest & _ & Hfresh & _ &
                       _ & _ & Hothers & _).
    rewrite Hothers; [by rewrite Hm, (Hframe _ _ Hm)|done|].
    intros Hx. rewrite (Hfresh x) in Hm; [done|]. by eapply preorder_forest_roots.
  - destruct Hstep as [Hframe _]. by rewrite Hm, (Hframe _ _ Hm).
Qed.

Lemma iterate_stays_inside P (reg : registry) (h0 : heap) root (l0 : list nat) :
  registry_well_behaved P reg →
  (∀ p m, P m → P (with_parent p m)) →
  ∀ fuel (h : heap) stack log pending,
    walk_state P h0 root h log pending →
    preorder_forest h (concat stack) pending →
    (∀ x, x ∈ pending → is_Some (h0 !! x) → x ∈ l0) →
    (∀ x, is_Some (h0 !! x) → x ∉ l0 → h !! x = h0 !! x) →
    ∀ x, is_Some (h0 !! x) → x ∉ l0 →
         store_of (iterate reg fuel h stack log) !! x = h0 !! x.
Proof.
  intros Hreg HP.
  induction fuel as [|fuel IH]; intros h stack log pending Hwalk Hpend Hin Hout x Hx Hxl.
  - destruct stack; simpl; by apply Hout.
  - destruct stack as [|[|c siblings] stack]; simpl; [by apply Hout| |].
    + by apply (IH h stack log pending).
    + destruct (do_my_work reg c h) as [h' [[]|e]] eqn:Hwork.
      * destruct (visit_step P reg h0 root h h' c siblings stack log pending
                    Hreg HP Hwalk Hpend Hwork)
          as (sub & lnew & lrest & -> & Hwalk' & Hpend' & [n Hn] & Hnd & Hnew & Hsame).
        apply (IH h' _ _ _ Hwalk' Hpend'); [| |done|done].
        -- intros y Hy Hy0.
           assert (y ∈ sub ++ lrest ∨ y ∈ lnew) as [Hold|Hfresh].
           { rewrite !elem_of_app in Hy. rewrite elem_of_app. tauto. }
           ++ apply Hin; [|done]. by right.
           ++ destruct (Hnew y Hfresh) as [Hnone _].
              destruct Hwalk as (_ & Hdom & _). destruct (Hdom y Hy0) as [m Hm].
              congruence.
        -- intros y Hy Hyl.
           destruct Hwalk as (Hclosed & Hdom & _).
           rewrite (do_my_work_others P reg c h h' n _ Hreg Hclosed Hn Hwork).
           ++ by apply Hout.
           ++ by apply Hdom.
           ++ intros ->. apply Hyl, Hin; [by left|done].
      * simpl. simpl in Hpend.
        apply preorder_forest_cons_inv in Hpend as (lc & lrest & -> & Hc & _).
        inversion Hc as [c' n sub Hn Hsub]; subst.
        destruct Hwalk as (Hclosed & Hdom & _).
        rewrite (do_my_work_others P reg c h h' n _ Hreg Hclosed Hn Hwork).
        -- by apply Hout.
        -- by apply Hdom.
        -- intros ->. apply Hxl, Hin; [by left|done].
Qed.

(** When the resolvers keep the resolver contract, a walk started at a node
    changes nothing outside the tree below that node: whatever its outcome,
    every node that existed before the call and is not in the subtree is
    exactly as it was. *)
Theorem do_all_work_stays_in_subtree (reg : registry) (h0 : heap) root l0 fuel :
  registry_well_behaved (λ _, True) reg →
  parents_closed h0 →
  preorder_of h0 root l0 →
  NoDup l0 →
  ∀ x, is_Some (h0 !! x) → x ∉ l0 →
       store_of (do_all_work reg fuel root h0) !! x = h0 !! x.
Proof.
  intros Hreg Hclosed Hl0 Hnd x Hx Hxl.
  destruct (walk_state_initial (λ _, True) h0 root l0 Hclosed Hl0 Hnd) as [Hwalk Hpend].
  by apply (iterate_stays_inside (λ _, True) reg h0 root l0 Hreg (λ _ _ _, I)
              fuel h0 [[root]] [] l0).
Qed.

Lemma do_all_work_stays_in_subtree_witness :
  store_of (do_all_work scenario_registry 10 1 failure_store) !! 0 = failure_store !! 0 ∧
  store_of (do_all_work scenario_registry 10 1 failure_store) !! 2 = failure_store !! 2.
Proof.
  split.
  - apply (do_all_work_stays_in_subtree scenario_registry failure_store 1 [1] 10).
    + apply (registry_well_behaved_weaken as_constructed); [done|].
      apply scenario_registry_well_behaved.
    + apply parents_closedb_sound. vm_compute. reflexivity.
    + apply (preorder_list_sound _ 2). vm_compute. reflexivity.
    + apply NoDup_singleton.
    + vm_compute. eauto.
    + by intros [=]%list_elem_of_singleton.
  - apply (do_all_work_stays_in_subtree scenario_registry failure_store 1 [1] 10).
    + apply (registry_well_behaved_weaken as_constructed); [done|].
      apply scenario_registry_well_behaved.
    + apply parents_closedb_sound. vm_compute. reflexivity.
    + apply (preorder_list_sound _ 2). vm_compute. reflexivity.
    + apply NoDup_singleton.
    + vm_compute. eauto.
    + by intros [=]%list_elem_of_singleton.
Defined.

(** * The walk as a sequence of resolver calls *)

(** Under the contract a visit succeeds and does what one resolver call
    asks for. *)
Lemma do_my_work_succeeds P (reg : registry) c (h h1 : heap) n
    (r : resolver) args_ new_work out :
  parents_closed h →
  h !! c = Some n →
  reg !! work_type n = Some r →
  py_iter (args n) = Some args_ →
  well_behaved P r →
  r args_ (kwargs n) h = (h1, Ok (new_work, out)) →
  ∃ ids (h' : heap),
    new_work = PList (PNode <$> ids) ∧
    do_my_work reg c h = (h', Ok tt) ∧
    h' !! c = Some (with_finished true
                      (with_children (children n ++ ids) (with_output out n))) ∧
    (∀ x, x ∈ ids → ∃ m, h1 !! x = Some m ∧ h' !! x = Some (with_parent (Some c) m)) ∧
    (∀ x, x ≠ c → x ∉ ids → h' !! x = h1 !! x).
Proof.
  intros Hclosed Hn Hr Hargs Hwb Hcall.
  destruct (Hwb _ _ _ _ _ Hclosed Hcall)
    as (Hframe & Hclosed1 & ids & lnew & -> & Hforest & Hnd & Hfresh & HP & Hroots).
  pose proof (Hframe _ _ Hn) as Hn1.
  set (g := <[c := with_output out n]> h1).
  assert (∀ x, x ∈ ids → h !! x = None) as Hidsfresh.
  { intros x Hx. apply Hfresh. by eapply preorder_forest_roots. }
  assert (NoDup ids) as Hndids.
  { clear -Hforest Hnd. induction Hforest as [|c cs l1 l2 Hc Hcs IH]; [constructor|].
    apply NoDup_app in Hnd as (Hnd1 & Hdisj & Hnd2). constructor; [|by apply IH].
    intros Hin. destruct (preorder_of_head _ _ _ Hc) as [l' ->].
    apply (Hdisj c); [by left|]. by eapply preorder_forest_roots. }
  assert (∀ x, x ∈ ids → x ≠ c) as Hidsc.
  { intros x Hx ->. rewrite (Hidsfresh c Hx) in Hn. done. }
  destruct (attach_children (λ y, is_Some (h !! y)) c ids g (with_output out n))
    as (g' & Hloop & Hc' & Hids & Hrest).
  { done. }
  { intros x Hx [m Hm]. rewrite (Hidsfresh x Hx) in Hm. done. }
  { eauto. }
  { intros y m p [my Hy] Hm Hp. unfold g in Hm.
    destruct (decide (y = c)) as [->|Hyc].
    - rewrite lookup_insert_eq in Hm. injection Hm as <-.
      exact (Hclosed _ _ _ Hn Hp).
    - rewrite lookup_insert_ne in Hm by done.
      rewrite (Hframe _ _ Hy) in Hm. injection Hm as <-.
      exact (Hclosed _ _ _ Hy Hp). }
  { unfold g. by rewrite lookup_insert_eq. }
  { intros x Hx. destruct (Hroots x Hx) as (m & Hm & Hp). exists m. split; [|done].
    unfold g. rewrite lookup_insert_ne; [done|]. intros <-. by apply (Hidsc c). }
  exists ids. eexists. split; [done|]. split; [|split; [|split]].
  - unfold do_my_work. rewrite (bind_ok _ _ _ _ _ (deref_ok _ _ _ Hn)).
    unfold lookup_resolver. rewrite Hr, Hargs.
    rewrite (bind_ok _ _ _ _ _ Hcall).
    rewrite (bind_ok _ _ _ _ _ (update_node_ok _ (with_output out) _ _ Hn1)).
    fold g.
    assert ((if truthy (PList (PNode <$> ids))
             then match py_iter (PList (PNode <$> ids)) with
                  | Some items => for_each (attach_child c) items
                  | None => raise (TypeError "object is not iterable")
                  end
             else ret tt) g = (g', Ok tt)) as Hattach.
    { destruct ids; [|exact Hloop]. simpl. simpl in Hloop. done. }
    rewrite (bind_ok _ _ _ _ _ Hattach).
    apply (update_node_ok _ _ _ _ Hc').
  - by rewrite lookup_insert_eq.
  - intros x Hx. destruct (Hids x Hx) as (m & Hm & Hm'). exists m.
    unfold g in Hm. rewrite lookup_insert_ne in Hm by (intros <-; by eapply Hidsc).
    split; [done|]. rewrite lookup_insert_ne by (intros <-; by eapply Hidsc). done.
  - intros x Hxc Hx. rewrite lookup_insert_ne by done. rewrite Hrest by done.
    unfold g. by rewrite lookup_insert_ne.
Qed.

Lemma do_my_work_resolves P (reg : registry) c (h h' : heap) n :
  registry_well_behaved P reg →
  parents_closed h →
  h !! c = Some n →
  do_my_work reg c h = (h', Ok tt) →
  resolved reg c h h'.
Proof.
  intros Hreg Hclosed Hn Hwork. pose proof Hwork as Hw. unfold do_my_work in Hw.
  rewrite (bind_ok _ _ _ _ _ (deref_ok _ _ _ Hn)) in Hw. unfold lookup_resolver in Hw.
  destruct (reg !! work_type n) as [r|] eqn:Hr; [|by injection Hw].
  destruct (py_iter (args n)) as [args_|] eqn:Hargs; [|by injection Hw].
  apply bind_inv in Hw as [(h1 & [new_work out] & Hcall & _)|(e & _ & [=])].
  destruct (do_my_work_succeeds P reg c h h1 n r args_ new_work out
              Hclosed Hn Hr Hargs (Hreg _ _ Hr) Hcall)
    as (ids & h'' & -> & Hwork' & Hc & Hids & Hrest).
  rewrite Hwork in Hwork'. injection Hwork' as <-.
  by apply (resolved_by reg c h h' n r args_ h1 ids out).
Qed.

Lemma resolved_in_turn_snoc (reg : registry) (h h1 h' : heap) l c :
  resolved_in_turn reg h l h1 → resolved reg c h1 h' →
  resolved_in_turn reg h (l ++ [c]) h'.
Proof.
  induction 1 as [h|c0 l h ha hb Hc0 _ IH]; intros Hc; simpl.
  - apply (resolved_next reg c [] h h' h'); [done|constructor].
  - apply (resolved_next reg c0 (l ++ [c]) h ha h'); [done|by apply IH].
Qed.


Lemma iterate_resolved P (reg : registry) (h0 : heap) root (l0 : list nat) :
  registry_well_behaved P reg →
  (∀ p m, P m → P (with_parent p m)) →
  ∀ fuel (h : heap) stack log pending,
    walk_state P h0 root h log pending →
    preorder_forest h (concat stack) pending →
    resolved_in_turn reg h0 log h →
    (∀ x, x ∈ l0 → x ∈ log ++ pending) →
    match iterate reg fuel h stack log with
    | Done h' log' => resolved_in_turn reg h0 log' h' ∧ ∀ x, x ∈ l0 → x ∈ log'
    | Raised e c h' log' =>
        ∃ hb : heap, resolved_in_turn reg h0 log' hb ∧ do_my_work reg c hb = (h', Raise e)
    | OutOfFuel h' _ log' => resolved_in_turn reg h0 log' h'
    end.
Proof.
  intros Hreg HP.
  induction fuel as [|fuel IH]; intros h stack log pending Hwalk Hpend Hres Hl0.
  - destruct stack; simpl; [|done].
    apply preorder_forest_nil_inv in Hpend as ->. rewrite app_nil_r in Hl0. done.
  - destruct stack as [|[|c siblings] stack]; simpl.
    + apply preorder_forest_nil_inv in Hpend as ->. rewrite app_nil_r in Hl0. done.
    + by apply (IH h stack log pending).
    + destruct (do_my_work reg c h) as [h' [[]|e]] eqn:Hwork; [|eauto].
      destruct (visit_step P reg h0 root h h' c siblings stack log pending
                  Hreg HP Hwalk Hpend Hwork)
        as (sub & lnew & lrest & -> & Hwalk' & Hpend' & [n Hn] & _).
      apply (IH h' _ _ _ Hwalk' Hpend').
      * apply (resolved_in_turn_snoc reg h0 h h' log c Hres).
        by apply (do_my_work_resolves P reg c h h' n Hreg (proj1 Hwalk)).
      * intros x Hx. specialize (Hl0 x Hx).
        rewrite !elem_of_app in Hl0 |- *. rewrite elem_of_cons, elem_of_app in Hl0.
        rewrite !elem_of_app, list_elem_of_singleton. tauto.
Qed.

(** C1 (as amended): when the resolvers keep the resolver contract,
    [do_all_work] works on the nodes of the tree in pre-order and calls the
    resolver of each node exactly once.  Whatever the number of steps it has
    been given, the store is what one resolver call for each node of [log],
    in the order of [log], has made of the initial store, and [log] followed
    by the nodes still pending lists the tree as it now stands in pre-order,
    without repetition; when the walk is over, [log] is the pre-order listing
    of the whole final tree, nodes made on the way included, and holds
    exactly the nodes reachable from the root, each once. *)
Theorem do_all_work_preorder (reg : registry) (h0 : heap) root l0 fuel :
  registry_well_behaved (λ _, True) reg →
  parents_closed h0 →
  preorder_of h0 root l0 →
  NoDup l0 →
  match do_all_work reg fuel root h0 with
  | Done h log =>
      resolved_in_turn reg h0 log h ∧
      preorder_of h root log ∧ NoDup log ∧ (∀ x, reachable h root x ↔ x ∈ log)
  | Raised e c h log =>
      ∃ (hb : heap) pending,
        resolved_in_turn reg h0 log hb ∧
        do_my_work reg c hb = (h, Raise e) ∧
        preorder_of h root (log ++ c :: pending) ∧
        NoDup (log ++ c :: pending)
  | OutOfFuel h stack log =>
      ∃ pending,
        resolved_in_turn reg h0 log h ∧
        preorder_forest h (concat stack) pending ∧
        preorder_of h root (log ++ pending) ∧
        NoDup (log ++ pending)
  end.
Proof.
  intros Hreg Hclosed Hl0 Hnd.
  destruct (walk_state_initial (λ _, True) h0 root l0 Hclosed Hl0 Hnd) as [Hwalk Hpend].
  pose proof (iterate_invariant (λ _, True) reg h0 root Hreg (λ _ _ _, I)
                fuel h0 [[root]] [] l0 Hwalk Hpend) as Hinv.
  pose proof (iterate_resolved (λ _, True) reg h0 root l0 Hreg (λ _ _ _, I)
                fuel h0 [[root]] [] l0 Hwalk Hpend (resolved_none reg h0)
                (λ x Hx, Hx)) as Hres.
  unfold do_all_work. destruct (iterate reg fuel h0 [[root]] []) as [h log|e c h log|h stack log].
  - destruct Hinv as (_ & _ & Hl & Hnodup & _). rewrite app_nil_r in Hl, Hnodup.
    split; [apply Hres|]. split; [done|]. split; [done|].
    intros x. by apply preorder_of_reachable.
  - destruct Hinv as (pending & _ & _ & Hl & Hnodup & _).
    destruct Hres as (hb & Hturn & Hfail). eauto 10.
  - destruct Hinv as (pending & (_ & _ & Hl & Hnodup & _) & Hpending). eauto 10.
Qed.

Lemma do_all_work_preorder_witness :
  let h := store_of (do_all_work scenario_registry 10 0 (single_root parse_table)) in
  do_all_work scenario_registry 10 0 (single_root parse_table) = Done h [0; 1; 2] ∧
  resolved_in_turn scenario_registry (single_root parse_table) [0; 1; 2] h ∧
  preorder_of h 0 [0; 1; 2] ∧
  (∀ x, reachable h 0 x ↔ x ∈ [0; 1; 2]).
Proof.
  intros h.
  assert (do_all_work scenario_registry 10 0 (single_root parse_table) = Done h [0; 1; 2])
    as Hrun by (vm_compute; reflexivity).
  pose proof (do_all_work_preorder scenario_registry (single_root parse_table) 0 [0] 10) as H.
  rewrite Hrun in H. split; [exact Hrun|].
  destruct H as (Hturn & Hl & _ & Hreach).
  - apply (registry_well_behaved_weaken as_constructed); [done|].
    apply scenario_registry_well_behaved.
  - apply parents_closedb_sound. vm_compute. reflexivity.
  - apply (preorder_list_sound _ 2). vm_compute. reflexivity.
  - apply NoDup_singleton.
  - split; [exact Hturn|]. split; [exact Hl|exact Hreach].
Defined.

(** C1, the counterexample: a resolver may hand back a node that is already
    in the tree.  Here the second child of the root returns the first child,
    which anytree moves below it; the first child is then worked on a second
    time, in the same call. *)
Lemma aliased_node_worked_on_twice :
  preorder_of (aliasing_store roll_table) 0 [0; 1; 2] ∧
  ∃ h : heap,
    do_all_work aliasing_registry 10 0 (aliasing_store roll_table) = Done h [0; 1; 2; 1] ∧
    ¬ NoDup [0; 1; 2; 1].
Proof.
  split; [apply (preorder_list_sound _ 2); vm_compute; reflexivity|].
  eexists. split; [vm_compute; reflexivity|].
  intros Hnd. apply NoDup_cons in Hnd as [_ Hnd]. apply NoDup_cons in Hnd as [Hin _].
  apply Hin. right. by left.
Qed.






(** The contract is needed for that: a walk started at the second child of
    the root, whose resolver hands back the first child, takes the first
    child away from the root, although neither is below the second child. *)
Lemma aliasing_walk_leaves_subtree :
  preorder_of (aliasing_store roll_table) 2 [2] ∧
  children_of (aliasing_store roll_table) 0 = [1; 2] ∧
  children_of (store_of (do_all_work aliasing_registry 10 2 (aliasing_store roll_table))) 0
  = [2].
Proof.
  split; [apply (preorder_list_sound _ 2); vm_compute; reflexivity|].
  split; vm_compute; reflexivity.
Qed.
